(** * Gateway: round-robin endpoint pool, sliding-window rate limiter and
    the request path of [LoadBalancing/gateway.py].

    The Python classes [LoadBalancer] and [RateLimiter] are embedded as
    records with explicit state passing: a method [m(self, x)] becomes
    [m x self], returning its result together with the state it leaves
    behind.  A raised exception is a [Raise] result.  *)

From Stdlib Require Import ZArith Lia.
From stdpp Require Import base list strings gmap pretty sorting.

#[local] Set Warnings "-clear-no-such-hyp".

Local Open Scope string_scope.
Local Open Scope list_scope.
Local Open Scope Z_scope.

(* ===================================================================== *)
(** ** Results and exceptions                                             *)
(* ===================================================================== *)

(** JSON values, as far as the gateway builds or relays them. *)
#[local] Unset Elimination Schemes.
Inductive json :=
| JStr (s : string)
| JInt (n : Z)
| JList (items : list json)
| JObj (fields : list (string * json)).
#[local] Set Elimination Schemes.

Inductive exn :=
| HTTPException (status_code : Z) (detail : json)
| IndexError.

Inductive result (A : Type) :=
| Ok (a : A)
| Raise (e : exn).
Arguments Ok {A} a.
Arguments Raise {A} e.

(* ===================================================================== *)
(** ** LoadBalancer                                                       *)
(* ===================================================================== *)

Record LoadBalancer := mkLoadBalancer {
  services : list string;
  current_index : Z;
  healthy_services : list string
}.

(** [LoadBalancer.__init__]: the healthy list starts as a copy of the
    configured list, the cursor at zero. *)
Definition LoadBalancer_init (svcs : list string) : LoadBalancer :=
  {| services := svcs; current_index := 0; healthy_services := svcs |}.

Definition BACKEND_SERVICES : list string :=
  ["http://localhost:8001"; "http://localhost:8002"; "http://localhost:8003"].

Definition no_healthy : exn :=
  HTTPException 503 (JStr "No healthy backend services available").

(** [get_next_service]: Python's [%] with a positive divisor is [Z.modulo];
    list indexing out of range would raise [IndexError]. *)
Definition get_next_service (lb : LoadBalancer) : result string * LoadBalancer :=
  match healthy_services lb with
  | [] => (Raise no_healthy, lb)
  | _ :: _ =>
      let i := current_index lb `mod` Z.of_nat (length (healthy_services lb)) in
      match healthy_services lb !! Z.to_nat i with
      | Some service =>
          (Ok service,
           {| services := services lb;
              current_index := current_index lb + 1;
              healthy_services := healthy_services lb |})
      | None => (Raise IndexError, lb)
      end
  end.

(** [list.remove(x)]: drops the first occurrence of [x] only. *)
Fixpoint list_remove (x : string) (l : list string) : list string :=
  match l with
  | [] => []
  | y :: l' => if decide (x = y) then l' else y :: list_remove x l'
  end.

Definition mark_unhealthy (service : string) (lb : LoadBalancer) : LoadBalancer :=
  if decide (service ∈ healthy_services lb) then
    {| services := services lb;
       current_index := current_index lb;
       healthy_services := list_remove service (healthy_services lb) |}
  else lb.

Definition mark_healthy (service : string) (lb : LoadBalancer) : LoadBalancer :=
  if decide ((service ∉ healthy_services lb) ∧ (service ∈ services lb)) then
    {| services := services lb;
       current_index := current_index lb;
       healthy_services := healthy_services lb ++ [service] |}
  else lb.

Record ServiceEntry := mkServiceEntry { url : string; status : string }.

Record ServiceStatus := mkServiceStatus {
  total_services : nat;
  healthy_count : nat;
  service_entries : list ServiceEntry
}.

(** [get_service_status] only reads the pool. *)
Definition get_service_status (lb : LoadBalancer) : ServiceStatus :=
  {| total_services := length (services lb);
     healthy_count := length (healthy_services lb);
     service_entries :=
       (λ service,
          {| url := service;
             status := if decide (service ∈ healthy_services lb)
                       then "healthy" else "unhealthy" |}) <$> services lb |}.

(** The four pool operations as one transition function on the pool. *)
Inductive pool_op :=
| OpNext
| OpMarkUnhealthy (service : string)
| OpMarkHealthy (service : string)
| OpStatus.

Definition run_op (op : pool_op) (lb : LoadBalancer) : LoadBalancer :=
  match op with
  | OpNext => (get_next_service lb).2
  | OpMarkUnhealthy s => mark_unhealthy s lb
  | OpMarkHealthy s => mark_healthy s lb
  | OpStatus => let _ := get_service_status lb in lb
  end.

Definition run_ops (ops : list pool_op) (lb : LoadBalancer) : LoadBalancer :=
  foldl (λ st op, run_op op st) lb ops.

(** [n] consecutive selections: the endpoints handed out, in call order
    (a failed call hands out nothing), and the final pool. *)
Fixpoint next_n (n : nat) (lb : LoadBalancer) : list (result string) * LoadBalancer :=
  match n with
  | O => ([], lb)
  | S n' =>
      let '(r, lb1) := get_next_service lb in
      let '(rs, lb2) := next_n n' lb1 in
      (r :: rs, lb2)
  end.

(* ===================================================================== *)
(** ** RateLimiter                                                        *)
(* ===================================================================== *)

(** Instants are the readings of [time.time()].  Python reads the clock
    as a float; here a reading is a whole number of seconds, on which the
    limiter's subtractions and comparisons are exact.  Every method that
    reads the clock takes the reading as its [current_time] argument. *)
Definition instant := Z.

(** [int(x)]: the whole part of a number, which a whole reading is
    already. *)
Definition int (x : instant) : Z := x.

(** The [defaultdict(list)] is a finite map; a key is tracked once it has
    an entry, whatever the entry holds. *)
Record RateLimiter := mkRateLimiter {
  max_requests : Z;
  window_seconds : Z;
  requests : gmap string (list instant)
}.

Definition RateLimiter_init (max_req window : Z) : RateLimiter :=
  {| max_requests := max_req; window_seconds := window; requests := ∅ |}.

(** [d[k]] on a [defaultdict(list)]: a missing key is first bound to a
    fresh empty list, which is then returned. *)
Definition dd_getitem (k : string) (d : gmap string (list instant))
  : list instant * gmap string (list instant) :=
  match d !! k with
  | Some v => (v, d)
  | None => ([], <[k := []]> d)
  end.

Definition set_requests (d : gmap string (list instant)) (rl : RateLimiter) : RateLimiter :=
  {| max_requests := max_requests rl;
     window_seconds := window_seconds rl;
     requests := d |}.

(** The list comprehension shared by [is_allowed] and
    [get_remaining_requests]. *)
Definition in_window (window : Z) (current_time : instant) (l : list instant) : list instant :=
  filter (λ req_time, current_time - req_time < window) l.

(** [self.requests[client_ip] = [t for t in self.requests[client_ip] if ...]] *)
Definition prune (client_ip : string) (current_time : instant) (rl : RateLimiter)
  : gmap string (list instant) :=
  let '(old, d1) := dd_getitem client_ip (requests rl) in
  <[client_ip := in_window (window_seconds rl) current_time old]> d1.

Definition is_allowed (client_ip : string) (current_time : instant) (rl : RateLimiter)
  : bool * RateLimiter :=
  let d1 := prune client_ip current_time rl in
  let '(cur, d2) := dd_getitem client_ip d1 in
  if decide (max_requests rl ≤ Z.of_nat (length cur)) then
    (false, set_requests d2 rl)
  else
    let '(cur', d3) := dd_getitem client_ip d2 in
    (true, set_requests (<[client_ip := cur' ++ [current_time]]> d3) rl).

Definition get_remaining_requests (client_ip : string) (current_time : instant)
    (rl : RateLimiter) : Z * RateLimiter :=
  let d1 := prune client_ip current_time rl in
  let '(cur, d2) := dd_getitem client_ip d1 in
  (Z.max 0 (max_requests rl - Z.of_nat (length cur)), set_requests d2 rl).

(** Python's [min] over a list; on the empty list it raises, which
    [get_reset_time] rules out before calling it. *)
Definition list_min (l : list instant) : option instant :=
  match l with
  | [] => None
  | x :: l' => Some (foldl Z.min x l')
  end.

(** [get_reset_time] reads the stored list as it is: the lookups of
    [self.requests[client_ip]] all see the same list, and there is no
    comprehension. *)
Definition get_reset_time (client_ip : string) (current_time : instant)
    (rl : RateLimiter) : Z * RateLimiter :=
  let '(cur, d1) := dd_getitem client_ip (requests rl) in
  match list_min cur with
  | None => (0, set_requests d1 rl)
  | Some oldest_request =>
      let reset_time := oldest_request + window_seconds rl in
      (Z.max 0 (reset_time - current_time), set_requests d1 rl)
  end.

(** The limiter the module builds: five requests per sixty seconds. *)
Definition rate_limiter0 : RateLimiter := RateLimiter_init 5 60.

(* ===================================================================== *)
(** ** Requests, responses and the world around one request               *)
(* ===================================================================== *)

Record Request := mkRequest {
  req_method : string;
  req_path : string;                       (* request.url.path *)
  client_host : string;                    (* request.client.host *)
  req_headers : gmap string string;        (* dict(request.headers) *)
  req_body : string;
  query_params : list (string * string)
}.

Record Response := mkResponse {
  resp_status : Z;
  resp_content : json;
  resp_headers : gmap string string
}.

(** The request [client.request(...)] sends to a backend. *)
Record Outbound := mkOutbound {
  out_method : string;
  out_url : string;
  out_headers : gmap string string;
  out_content : string;
  out_params : list (string * string)
}.

(** What the awaited backend call, followed by [response.json()], comes
    to: a reply with a JSON body, a reply whose body does not parse (the
    parse raises a [ValueError]), an [httpx.RequestError] (the transport
    failures: connect, timeout, name resolution, protocol violation), or
    any other exception. *)
Inductive BackendOutcome :=
| Replied (status_code : Z) (body : json)
| BadJson (status_code : Z) (msg : string)
| RequestError (msg : string)
| OtherException (msg : string).

(** The successive readings of [time.time()] along one request, named by
    the call that makes them. *)
Record Clock := mkClock {
  t_allowed : instant;            (* is_allowed, in the middleware *)
  t_stats_remaining : instant;  (* get_remaining_requests, in get_stats *)
  t_stats_reset : instant;      (* get_reset_time, in get_stats *)
  t_remaining : instant;        (* get_remaining_requests, in the middleware *)
  t_reset : instant;            (* get_reset_time, in the middleware *)
  t_header : instant            (* the X-RateLimit-Reset header *)
}.

Record Env := mkEnv {
  clock : Clock;
  stamp : string;                          (* datetime.now().isoformat() *)
  backend : Outbound → BackendOutcome
}.

(** The two module-level singletons. *)
Record Gateway := mkGateway {
  load_balancer : LoadBalancer;
  rate_limiter : RateLimiter
}.

Definition gateway0 : Gateway :=
  {| load_balancer := LoadBalancer_init BACKEND_SERVICES;
     rate_limiter := rate_limiter0 |}.

(** What running a handler leaves behind: its return value or exception,
    the singletons, and the backend requests it sent, in order. *)
Record Outcome := mkOutcome {
  returned : result Response;
  after : Gateway;
  sent : list Outbound
}.

Definition JSONResponse (content : json) (status_code : Z)
    (headers : list (string * string)) : Response :=
  {| resp_status := status_code;
     resp_content := content;
     resp_headers := list_to_map headers |}.

(** A handler returning a dictionary is answered with status 200. *)
Definition returns_dict (content : json) (g : Gateway) : Outcome :=
  {| returned := Ok (JSONResponse content 200 []); after := g; sent := [] |}.

Definition str (n : Z) : string := pretty n.

(* ===================================================================== *)
(** ** Handlers                                                           *)
(* ===================================================================== *)

Definition status_json (st : ServiceStatus) : json :=
  JObj [("total_services", JInt (Z.of_nat (total_services st)));
        ("healthy_services", JInt (Z.of_nat (healthy_count st)));
        ("services",
         JList ((λ e, JObj [("url", JStr (url e)); ("status", JStr (status e))])
                  <$> service_entries st))].




Definition unavailable (service_url details : string) (env : Env) : exn :=
  HTTPException 503
    (JObj [("error", JStr "Service unavailable");
           ("message", JStr ("Failed to connect to backend service: " +:+ service_url));
           ("details", JStr details);
           ("timestamp", JStr (stamp env))]).

Definition internal_error (msg : string) (env : Env) : exn :=
  HTTPException 500
    (JObj [("error", JStr "Internal server error");
           ("message", JStr msg);
           ("timestamp", JStr (stamp env))]).

(** The forwarded request: same method, body and query parameters, the
    inbound headers without [host], aimed at the chosen backend. *)
Definition outbound_for (service_url path : string) (request : Request) : Outbound :=
  let target_url := service_url +:+ "/" +:+ path in
  let headers := delete "host" (req_headers request) in
  {| out_method := req_method request;
     out_url := target_url;
     out_headers := headers;
     out_content := req_body request;
     out_params := query_params request |}.

Definition proxy_request (path : string) (request : Request) (env : Env)
    (g : Gateway) : Outcome :=
  match get_next_service (load_balancer g) with
  | (Raise e, lb1) =>
      {| returned := Raise e;
         after := {| load_balancer := lb1; rate_limiter := rate_limiter g |};
         sent := [] |}
  | (Ok service_url, lb1) =>
      let out := outbound_for service_url path request in
      match backend env out with
      | Replied code body =>
          {| returned :=
               Ok (JSONResponse body code
                     [("X-Gateway", "API Gateway");
                      ("X-Backend-Service", service_url);
                      ("X-Load-Balancer", "Round Robin")]);
             after := {| load_balancer := lb1; rate_limiter := rate_limiter g |};
             sent := [out] |}
      | RequestError details =>
          {| returned := Raise (unavailable service_url details env);
             after := {| load_balancer := mark_unhealthy service_url lb1;
                         rate_limiter := rate_limiter g |};
             sent := [out] |}
      | BadJson _ msg | OtherException msg =>
          {| returned := Raise (internal_error msg env);
             after := {| load_balancer := lb1; rate_limiter := rate_limiter g |};
             sent := [out] |}
      end
  end.

Definition get_stats (request : Request) (env : Env) (g : Gateway) : Outcome :=
  let client_ip := client_host request in
  let '(remaining, rl1) :=
    get_remaining_requests client_ip (t_stats_remaining (clock env)) (rate_limiter g) in
  let '(reset_time, rl2) :=
    get_reset_time client_ip (t_stats_reset (clock env)) rl1 in
  returns_dict
    (JObj [("gateway", JStr "API Gateway");
           ("rate_limiting",
            JObj [("max_requests", JInt (max_requests (rate_limiter g)));
                  ("window_seconds", JInt (window_seconds (rate_limiter g)));
                  ("your_ip", JStr client_ip);
                  ("remaining_requests", JInt remaining);
                  ("reset_in_seconds", JInt (int reset_time))]);
           ("load_balancing",
            JObj [("algorithm", JStr "Round Robin");
                  ("current_index", JInt (current_index (load_balancer g)));
                  ("services", status_json (get_service_status (load_balancer g)))]);
           ("timestamp", JStr (stamp env))])
    {| load_balancer := load_balancer g; rate_limiter := rl2 |}.

(* ===================================================================== *)
(** ** Routing, exception handling and the rate-limit middleware          *)
(* ===================================================================== *)





(** The framework turns a raised [HTTPException] into a response carrying
    its status code and detail; this happens below the middleware. *)
Definition http_exception_handler (o : Outcome) : Outcome :=
  match returned o with
  | Raise (HTTPException code detail) =>
      {| returned := Ok (JSONResponse (JObj [("detail", detail)]) code []);
         after := after o; sent := sent o |}
  | _ => o
  end.

Definition rate_limited (client_ip : string) (remaining reset_time : Z)
    (env : Env) (rl : RateLimiter) : Response :=
  JSONResponse
    (JObj [("error", JStr "Rate limit exceeded");
           ("message",
            JStr ("Too many requests. Maximum " +:+ str (max_requests rl)
                  +:+ " requests per " +:+ str (window_seconds rl) +:+ " seconds."));
           ("client_ip", JStr client_ip);
           ("retry_after", JInt (int reset_time));
           ("limit", JInt (max_requests rl));
           ("remaining", JInt remaining);
           ("timestamp", JStr (stamp env))])
    429
    [("X-RateLimit-Limit", str (max_requests rl));
     ("X-RateLimit-Remaining", str remaining);
     ("X-RateLimit-Reset", str (int (t_header (clock env) + reset_time)));
     ("Retry-After", str (int reset_time))].

Definition with_limiter (rl : RateLimiter) (g : Gateway) : Gateway :=
  {| load_balancer := load_balancer g; rate_limiter := rl |}.

Definition exempt_paths : list string := ["/"; "/health"; "/services"].

Definition rate_limit_middleware (request : Request) (env : Env)
    (call_next : Gateway → Outcome) (g : Gateway) : Outcome :=
  let client_ip := client_host request in
  if decide (req_path request ∈ exempt_paths) then call_next g
  else
    let '(allowed, rl1) := is_allowed client_ip (t_allowed (clock env)) (rate_limiter g) in
    if negb allowed then
      let '(remaining, rl2) :=
        get_remaining_requests client_ip (t_remaining (clock env)) rl1 in
      let '(reset_time, rl3) := get_reset_time client_ip (t_reset (clock env)) rl2 in
      {| returned := Ok (rate_limited client_ip remaining reset_time env rl3);
         after := with_limiter rl3 g; sent := [] |}
    else
      let o := call_next (with_limiter rl1 g) in
      match returned o with
      | Raise e => o
      | Ok response =>
          let '(remaining, rl2) :=
            get_remaining_requests client_ip (t_remaining (clock env))
              (rate_limiter (after o)) in
          let '(reset_time, rl3) :=
            get_reset_time client_ip (t_reset (clock env)) rl2 in
          {| returned :=
               Ok {| resp_status := resp_status response;
                     resp_content := resp_content response;
                     resp_headers :=
                       <["X-RateLimit-Reset" :=
                           str (int (t_header (clock env) + reset_time))]>
                       (<["X-RateLimit-Remaining" := str remaining]>
                        (<["X-RateLimit-Limit" := str (max_requests rl3)]>
                         (resp_headers response))) |};
             after := with_limiter rl3 (after o);
             sent := sent o |}
      end.


(* ===================================================================== *)
(** ** Notions the statements use                                         *)
(* ===================================================================== *)

(** Greedy matching decides [sublist] on strings. *)
Fixpoint is_sublist (l1 l2 : list string) : bool :=
  match l1, l2 with
  | [], _ => true
  | _ :: _, [] => false
  | x :: l1', y :: l2' =>
      if decide (x = y) then is_sublist l1' l2' else is_sublist l1 l2'
  end.

(** The pool invariant as the data model words it: the healthy list is an
    order-preserving subsequence of the configured list, and neither list
    repeats an endpoint. *)
Definition ordered_inv (lb : LoadBalancer) : Prop :=
  healthy_services lb `sublist_of` services lb ∧
  NoDup (healthy_services lb) ∧ NoDup (services lb).

(** The invariant the operations keep: every healthy endpoint is a
    configured one, and neither list repeats an endpoint. *)
Definition pool_inv (lb : LoadBalancer) : Prop :=
  healthy_services lb ⊆ services lb ∧
  NoDup (healthy_services lb) ∧ NoDup (services lb).

(** A sequence of handed-out endpoints follows the configured order when
    it is a rotation of an order-preserving subsequence of the configured
    list (the rotation accounts for where the cursor starts). *)
Definition configured_order (outs svcs : list string) : Prop :=
  ∃ k, rotate k outs `sublist_of` svcs.

Definition set_cursor (c : Z) (lb : LoadBalancer) : LoadBalancer :=
  {| services := services lb; current_index := c;
     healthy_services := healthy_services lb |}.

(** The position the cursor [c] selects in a list of length [n]. *)
Definition slot (c : Z) (n : nat) : nat := Z.to_nat (c `mod` Z.of_nat n).

(** The list stored for a client, empty when the client has no entry. *)
Definition stored (rl : RateLimiter) (client_ip : string) : list instant :=
  default [] (requests rl !! client_ip).

(** [is_allowed] called at each instant of [ts] in turn. *)
Fixpoint is_allowed_seq (client_ip : string) (ts : list instant) (rl : RateLimiter)
  : list bool * RateLimiter :=
  match ts with
  | [] => ([], rl)
  | t :: ts' =>
      let '(b, rl1) := is_allowed client_ip t rl in
      let '(bs, rl2) := is_allowed_seq client_ip ts' rl1 in
      (b :: bs, rl2)
  end.

(** The reset time as the specification words it: over the timestamps
    still inside the window at [now], the time until the oldest of them
    leaves it; zero when none is left. *)
Definition reset_in_spec (client_ip : string) (now : instant) (rl : RateLimiter) : Z :=
  match list_min (in_window (window_seconds rl) now (stored rl client_ip)) with
  | None => 0
  | Some oldest_timestamp => Z.max 0 (oldest_timestamp + window_seconds rl - now)
  end.

(** The status code a request was answered with, if it was answered. *)
Definition status_of (o : Outcome) : option Z :=
  match returned o with
  | Ok response => Some (resp_status response)
  | Raise _ => None
  end.

(** Sample inputs: a client fetching a path, a clock that stands still,
    and a backend that cannot be reached. *)
Definition get_request (path : string) : Request :=
  {| req_method := "GET"; req_path := path; client_host := "127.0.0.1";
     req_headers := ∅; req_body := ""; query_params := [] |}.

Definition still_clock (t : instant) : Clock :=
  {| t_allowed := t; t_stats_remaining := t; t_stats_reset := t;
     t_remaining := t; t_reset := t; t_header := t |}.

Definition unreachable_env (t : instant) : Env :=
  {| clock := still_clock t; stamp := "2024-01-01T00:00:00";
     backend := λ _, RequestError "connection refused" |}.

(* ===================================================================== *)
(** ** The health-check task                                              *)
(* ===================================================================== *)

(** What one probe [client.get(service + "/health")] comes to: a response
    with its status code, or any exception (timeout, refused connection). *)
Inductive ProbeOutcome :=
| ProbeReplied (status_code : Z)
| ProbeRaised.

#[global] Instance ProbeOutcome_eq_dec : EqDecision ProbeOutcome.
Proof. solve_decision. Defined.

(** The body of the [for] loop: one service probed, one transition. *)
Definition probe_service (probe : string → ProbeOutcome) (service : string)
    (lb : LoadBalancer) : LoadBalancer :=
  match probe (service +:+ "/health") with
  | ProbeReplied code =>
      if decide (code = 200) then mark_healthy service lb
      else mark_unhealthy service lb
  | ProbeRaised => mark_unhealthy service lb
  end.

(** The [for] loop over a list of services, in list order. *)
Definition probe_round (svcs : list string) (probe : string → ProbeOutcome)
    (lb : LoadBalancer) : LoadBalancer :=
  foldl (λ st service, probe_service probe service st) lb svcs.

(** One pass of the [while True] body of [health_check_task]: the
    transitions the task makes in one round, in the order it makes them
    (the request handlers' own transitions are separate operations). *)
Definition health_check_round (probe : string → ProbeOutcome)
    (lb : LoadBalancer) : LoadBalancer :=
  probe_round BACKEND_SERVICES probe lb.

(** The first rounds of [health_check_task], one probe oracle per round. *)
Definition health_check_task (rounds : list (string → ProbeOutcome))
    (lb : LoadBalancer) : LoadBalancer :=
  foldl (λ st probe, health_check_round probe st) lb rounds.

(** A service passes its probe when the reply has status 200. *)
Definition probe_ok (probe : string → ProbeOutcome) (service : string) : Prop :=
  probe (service +:+ "/health") = ProbeReplied 200.

#[global] Instance probe_ok_dec (probe : string → ProbeOutcome) (service : string) :
  Decision (probe_ok probe service).
Proof. unfold probe_ok. apply _. Defined.

(** The number of selections in a run of pool operations. *)
Fixpoint count_next (ops : list pool_op) : nat :=
  match ops with
  | [] => 0
  | OpNext :: ops' => S (count_next ops')
  | _ :: ops' => count_next ops'
  end.

(* ===================================================================== *)
(** ** Runs of limiter calls                                              *)
(* ===================================================================== *)

Inductive limiter_op :=
| CallAllowed (client_ip : string) (current_time : instant)
| CallRemaining (client_ip : string) (current_time : instant)
| CallReset (client_ip : string) (current_time : instant).

(** The client a limiter call is made for. *)
Definition op_client (op : limiter_op) : string :=
  match op with
  | CallAllowed c _ | CallRemaining c _ | CallReset c _ => c
  end.

Definition run_limiter_op (op : limiter_op) (rl : RateLimiter) : RateLimiter :=
  match op with
  | CallAllowed c t => (is_allowed c t rl).2
  | CallRemaining c t => (get_remaining_requests c t rl).2
  | CallReset c t => (get_reset_time c t rl).2
  end.

Definition run_limiter_ops (ops : list limiter_op) (rl : RateLimiter) : RateLimiter :=
  foldl (λ st op, run_limiter_op op st) rl ops.

(** The instants of [ts] at which [is_allowed] answered True, in order. *)
Fixpoint accepted (client_ip : string) (ts : list instant) (rl : RateLimiter)
  : list instant :=
  match ts with
  | [] => []
  | t :: ts' =>
      let '(b, rl1) := is_allowed client_ip t rl in
      if b then t :: accepted client_ip ts' rl1 else accepted client_ip ts' rl1
  end.



(* ===================================================================== *)
(** ** Properties of the endpoint pool                                    *)
(* ===================================================================== *)

Section Pool.
Implicit Types (lb : LoadBalancer) (s service : string) (l : list string).

Lemma is_sublist_spec l1 l2 : is_sublist l1 l2 = true ↔ l1 `sublist_of` l2.
Proof.
  revert l1. induction l2 as [|y l2 IH]; intros [|x l1]; simpl.
  - split; [constructor | done].
  - split; [done | by intros ?%sublist_nil_r].
  - split; [intros _; apply sublist_nil_l | done].
  - destruct (decide (x = y)) as [->|Hne].
    + rewrite IH. split; [by constructor |].
      intros H0. apply sublist_cons_r in H0 as [H1 | (l' & [= <-] & H1)]; [|done].
      etrans; [|exact H1]. by apply sublist_cons.
    + rewrite IH. split; [by apply sublist_cons |].
      intros H0. apply sublist_cons_r in H0 as [H1 | (l' & [= ? <-] & H1)]; done.
Qed.

Lemma slot_lt c n : (0 < n)%nat → (slot c n < n)%nat.
Proof.
  intros Hn. unfold slot.
  pose proof (Z.mod_pos_bound c (Z.of_nat n)). lia.
Qed.

(** Selection on a non-empty healthy list always finds its slot. *)
Lemma get_next_service_nonempty lb :
  healthy_services lb ≠ [] →
  ∃ s, healthy_services lb !! slot (current_index lb) (length (healthy_services lb))
         = Some s ∧
       get_next_service lb = (Ok s, set_cursor (current_index lb + 1) lb).
Proof.
  intros Hne. unfold get_next_service, slot.
  destruct (healthy_services lb) as [|x l] eqn:Hh; [done|].
  destruct (lookup_lt_is_Some_2 (x :: l)
              (slot (current_index lb) (length (x :: l)))) as [s Hs].
  { apply slot_lt. simpl. lia. }
  exists s. unfold slot in Hs. rewrite Hs. split; [done|].
  unfold set_cursor. by rewrite Hh.
Qed.

Lemma get_next_service_empty lb :
  healthy_services lb = [] → get_next_service lb = (Raise no_healthy, lb).
Proof. intros Hh. unfold get_next_service. by rewrite Hh. Qed.

(** [n] selections on a non-empty healthy list: the [k]-th call hands out
    the entry at slot [cursor + k], and the cursor ends [n] further. *)
Lemma next_n_nonempty n : ∀ lb,
  healthy_services lb ≠ [] →
  (next_n n lb).2 = set_cursor (current_index lb + Z.of_nat n) lb ∧
  length (next_n n lb).1 = n ∧
  ∀ k, (k < n)%nat →
    (next_n n lb).1 !! k =
    Ok <$> healthy_services lb
             !! slot (current_index lb + Z.of_nat k) (length (healthy_services lb)).
Proof.
  induction n as [|n IH]; intros lb Hne.
  - simpl. split_and!; [|done|lia].
    destruct lb. unfold set_cursor. simpl. f_equal. lia.
  - destruct (get_next_service_nonempty lb Hne) as (s & Hs & Hstep).
    simpl. rewrite Hstep.
    destruct (IH (set_cursor (current_index lb + 1) lb) Hne) as (H2 & Hlen & Hk).
    destruct (next_n n (set_cursor (current_index lb + 1) lb)) as [rs lb2].
    simpl in *. split_and!.
    + rewrite H2. unfold set_cursor. simpl. f_equal. lia.
    + by rewrite Hlen.
    + intros [|k] Hlt; simpl.
      * by rewrite Z.add_0_r, Hs.
      * rewrite Hk by lia. do 3 f_equal. lia.
Qed.

Lemma next_n_rotation lb :
  healthy_services lb ≠ [] →
  next_n (length (healthy_services lb)) lb =
  (Ok <$> rotate (slot (current_index lb) (length (healthy_services lb)))
            (healthy_services lb),
   set_cursor (current_index lb + Z.of_nat (length (healthy_services lb))) lb).
Proof.
  intros Hne.
  destruct (next_n_nonempty (length (healthy_services lb)) lb Hne) as (H2 & Hlen & Hk).
  destruct (next_n _ lb) as [rs lb2]. simpl in *. f_equal; [|done].
  assert (0 < length (healthy_services lb))%nat as Hpos.
  { destruct (healthy_services lb); [done | simpl; lia]. }
  apply list_eq. intros i.
  destruct (decide (i < length (healthy_services lb))%nat) as [Hi|Hi].
  - rewrite Hk, list_lookup_fmap, lookup_rotate_r by done.
    do 2 f_equal. unfold rotate_nat_add, slot.
    rewrite Z2Nat.id by (apply Z.mod_pos_bound; lia).
    by rewrite Zplus_mod_idemp_l.
  - rewrite !lookup_ge_None_2; [done| |lia].
    rewrite length_fmap, length_rotate. lia.
Qed.

Lemma rotate_perm {A} (k : nat) (l : list A) : rotate k l ≡ₚ l.
Proof.
  unfold rotate. rewrite Permutation_app_comm. by rewrite take_drop.
Qed.

Lemma rotate_0 {A} (l : list A) : rotate 0 l = l.
Proof.
  unfold rotate. rewrite Nat.Div0.mod_0_l. simpl. by rewrite app_nil_r.
Qed.

(** Rotating back: a rotation is undone by the complementary one. *)
Lemma rotate_back {A} (r : nat) (l : list A) :
  (r < length l)%nat → rotate (length l - r) (rotate r l) = l.
Proof.
  intros Hr. destruct (decide (r = 0%nat)) as [->|Hr0].
  - rewrite rotate_0. unfold rotate.
    rewrite Nat.sub_0_r, Nat.Div0.mod_same. simpl. by rewrite app_nil_r.
  - unfold rotate at 1. rewrite length_rotate.
    rewrite (Nat.mod_small (length l - r)) by lia.
    unfold rotate. rewrite (Nat.mod_small r) by done.
    rewrite drop_app_length', take_app_length' by (rewrite length_drop; lia).
    apply take_drop.
Qed.

Lemma list_remove_notin x l : x ∉ l → list_remove x l = l.
Proof.
  induction l as [|y l IH]; [done|]. intros Hx. simpl.
  apply not_elem_of_cons in Hx as [Hxy Hx].
  rewrite decide_False by done. by rewrite IH.
Qed.

Lemma list_remove_sublist x l : list_remove x l `sublist_of` l.
Proof.
  induction l as [|y l IH]; simpl; [done|].
  case_decide; [by apply sublist_cons | by apply sublist_skip].
Qed.

Lemma filter_ne_notin x l : x ∉ l → filter (λ y, y ≠ x) l = l.
Proof.
  induction l as [|y l IH]; [done|]. intros Hx.
  apply not_elem_of_cons in Hx as [Hxy Hx].
  rewrite filter_cons_True by done. by rewrite IH.
Qed.

(** On a list without repetition, [remove] leaves no occurrence. *)
Lemma list_remove_NoDup x l :
  NoDup l → list_remove x l = filter (λ y, y ≠ x) l.
Proof.
  induction 1 as [|y l Hy Hnd IH]; [done|]. simpl.
  destruct (decide (x = y)) as [->|Hne].
  - rewrite filter_cons_False by (intros Hc; by apply Hc).
    by rewrite filter_ne_notin.
  - rewrite filter_cons_True by done. by rewrite IH.
Qed.

(** Selection never touches the two lists. *)
Lemma get_next_service_lists lb :
  healthy_services (get_next_service lb).2 = healthy_services lb ∧
  services (get_next_service lb).2 = services lb.
Proof.
  destruct (healthy_services lb) as [|x l] eqn:Hh.
  - by rewrite get_next_service_empty.
  - destruct (get_next_service_nonempty lb) as (s & _ & ->); [by rewrite Hh|].
    done.
Qed.

End Pool.

(* ===================================================================== *)
(** ** The pool: selection, health transitions, invariants                *)
(* ===================================================================== *)

(** C9 (frame of selection).  A failed [get_next_service] leaves the whole
    pool as it was; a successful one returns the pool with the cursor
    advanced by exactly one and with [healthy_services] and [services]
    untouched. *)
Theorem get_next_service_frame (lb : LoadBalancer) :
  match get_next_service lb with
  | (Raise e, lb') => lb' = lb
  | (Ok s, lb') =>
      current_index lb' = current_index lb + 1 ∧
      healthy_services lb' = healthy_services lb ∧
      services lb' = services lb
  end.
Proof.
  destruct (healthy_services lb) as [|x l] eqn:Hh.
  - by rewrite get_next_service_empty.
  - destruct (get_next_service_nonempty lb) as (s & _ & ->); [by rewrite Hh|].
    done.
Qed.

(** C7 (end-to-end scenario).  From a fresh pool [A; B; C], three
    selections hand out A, B, C; once B is marked unhealthy the next two
    hand out C then A; once B is marked healthy again the next one hands
    out B. *)
Theorem scenario_three_endpoints (A B C : string) :
  A ≠ B → B ≠ C →
  ∃ lb3 lb5,
    next_n 3 (LoadBalancer_init [A; B; C]) = ([Ok A; Ok B; Ok C], lb3) ∧
    next_n 2 (mark_unhealthy B lb3) = ([Ok C; Ok A], lb5) ∧
    (get_next_service (mark_healthy B lb5)).1 = Ok B.
Proof.
  intros HAB HBC. eexists _, _. split_and!.
  - reflexivity.
  - unfold mark_unhealthy. simpl.
    rewrite decide_True by set_solver. simpl.
    rewrite decide_False by done. rewrite decide_True by done.
    reflexivity.
  - unfold mark_healthy. simpl.
    rewrite decide_True; [reflexivity|].
    split; [|set_solver].
    intros [?|[?|?]%elem_of_cons]%elem_of_cons; [done|done|set_solver].
Qed.

Lemma scenario_three_endpoints_witness :
  ∃ lb3 lb5,
    next_n 3 (LoadBalancer_init BACKEND_SERVICES)
    = ([Ok "http://localhost:8001"; Ok "http://localhost:8002";
        Ok "http://localhost:8003"], lb3) ∧
    next_n 2 (mark_unhealthy "http://localhost:8002" lb3)
    = ([Ok "http://localhost:8003"; Ok "http://localhost:8001"], lb5) ∧
    (get_next_service (mark_healthy "http://localhost:8002" lb5)).1
    = Ok "http://localhost:8002".
Proof.
  apply (scenario_three_endpoints
           "http://localhost:8001" "http://localhost:8002" "http://localhost:8003");
    discriminate.
Defined.

(** On a healthy list that names an address twice, [mark_unhealthy] is
    not idempotent: the pool built from [a; a] still holds [a] after one
    call and loses it with the second. *)
Lemma mark_unhealthy_twice_on_repeated_entry :
  healthy_services (mark_unhealthy "a" (LoadBalancer_init ["a"; "a"])) = ["a"] ∧
  healthy_services
    (mark_unhealthy "a" (mark_unhealthy "a" (LoadBalancer_init ["a"; "a"]))) = [] ∧
  mark_unhealthy "a" (mark_unhealthy "a" (LoadBalancer_init ["a"; "a"]))
  ≠ mark_unhealthy "a" (LoadBalancer_init ["a"; "a"]).
Proof. split_and!; [reflexivity | reflexivity | discriminate]. Qed.

Lemma list_remove_length (x : string) (l : list string) :
  x ∈ l → S (length (list_remove x l)) = length l.
Proof.
  induction l as [|y l IH]; [by intros ?%elem_of_nil|].
  intros Hx. simpl. destruct (decide (x = y)) as [->|Hne]; [done|].
  apply elem_of_cons in Hx as [?|Hx]; [done|]. simpl. by rewrite IH.
Qed.

(** C8 (guarded health transitions, idempotent where the code makes them
    so).  For every pool and endpoint: [mark_unhealthy e] leaves the
    configured list and the cursor alone, removes one occurrence of [e]
    from the healthy list when there is one, and changes nothing
    otherwise; [mark_healthy e] appends [e] at the end of the healthy list
    exactly when [e] is configured and not yet healthy, changes nothing
    otherwise, and doing it twice is the same as doing it once.  When the
    healthy list repeats no endpoint, [mark_unhealthy e] leaves no [e] in
    it, and doing it twice is the same as doing it once. *)
Theorem mark_guarded_idempotent (lb : LoadBalancer) (e : string) :
  (services (mark_unhealthy e lb) = services lb ∧
   current_index (mark_unhealthy e lb) = current_index lb ∧
   healthy_services (mark_unhealthy e lb) = list_remove e (healthy_services lb) ∧
   (e ∈ healthy_services lb →
    S (length (healthy_services (mark_unhealthy e lb)))
    = length (healthy_services lb))) ∧
  (e ∉ healthy_services lb → mark_unhealthy e lb = lb) ∧
  (e ∈ services lb → e ∉ healthy_services lb →
   mark_healthy e lb =
   {| services := services lb; current_index := current_index lb;
      healthy_services := healthy_services lb ++ [e] |}) ∧
  (¬ (e ∈ services lb ∧ e ∉ healthy_services lb) → mark_healthy e lb = lb) ∧
  mark_healthy e (mark_healthy e lb) = mark_healthy e lb ∧
  (NoDup (healthy_services lb) →
   healthy_services (mark_unhealthy e lb)
   = filter (λ x, x ≠ e) (healthy_services lb) ∧
   (e ∉ healthy_services (mark_unhealthy e lb)) ∧
   mark_unhealthy e (mark_unhealthy e lb) = mark_unhealthy e lb).
Proof.
  assert (healthy_services (mark_unhealthy e lb)
          = list_remove e (healthy_services lb)) as Hrm.
  { unfold mark_unhealthy. case_decide; simpl; [done|].
    by rewrite list_remove_notin. }
  split_and!.
  - unfold mark_unhealthy. by case_decide.
  - unfold mark_unhealthy. by case_decide.
  - done.
  - intros Hin. rewrite Hrm. by apply list_remove_length.
  - intros Hne. unfold mark_unhealthy. by rewrite decide_False.
  - intros Hin Hout. unfold mark_healthy. by rewrite decide_True.
  - intros Hno. unfold mark_healthy. rewrite decide_False; [done|].
    intros [??]. by apply Hno.
  - destruct (decide ((e ∉ healthy_services lb) ∧ (e ∈ services lb))) as [Hc|Hc].
    + assert (mark_healthy e lb =
              {| services := services lb; current_index := current_index lb;
                 healthy_services := healthy_services lb ++ [e] |}) as ->.
      { unfold mark_healthy. rewrite decide_True; [done | exact Hc]. }
      unfold mark_healthy. simpl. rewrite decide_False; [done|].
      intros [Hout _]. apply Hout, elem_of_app. right. by left.
    + assert (mark_healthy e lb = lb) as ->.
      { unfold mark_healthy. rewrite decide_False; [done | exact Hc]. }
      unfold mark_healthy. rewrite decide_False; [done | exact Hc].
  - intros Hnd.
    assert (healthy_services (mark_unhealthy e lb)
            = filter (λ x, x ≠ e) (healthy_services lb)) as Hf.
    { rewrite Hrm. by apply list_remove_NoDup. }
    assert (e ∉ healthy_services (mark_unhealthy e lb)) as Hgone.
    { rewrite Hf. intros [Hne _]%list_elem_of_filter. by apply Hne. }
    split_and!; [done | done |].
    unfold mark_unhealthy at 1. by rewrite decide_False.
Qed.

Lemma mark_guarded_idempotent_witness :
  NoDup (healthy_services (LoadBalancer_init BACKEND_SERVICES)) ∧
  mark_unhealthy "http://localhost:8002"
    (mark_unhealthy "http://localhost:8002" (LoadBalancer_init BACKEND_SERVICES))
  = mark_unhealthy "http://localhost:8002" (LoadBalancer_init BACKEND_SERVICES).
Proof.
  assert (NoDup (healthy_services (LoadBalancer_init BACKEND_SERVICES))) as Hnd.
  { apply (bool_decide_unpack _). vm_compute. exact I. }
  split; [exact Hnd|].
  apply (mark_guarded_idempotent
           (LoadBalancer_init BACKEND_SERVICES) "http://localhost:8002").
  exact Hnd.
Defined.

(** Without the no-repetition condition the removal is of one occurrence
    only: a pool built from a configured list that names an address twice
    still holds it after one [mark_unhealthy]. *)
Example mark_unhealthy_repeated_entry :
  healthy_services (mark_unhealthy "a" (LoadBalancer_init ["a"; "a"])) = ["a"].
Proof. reflexivity. Qed.

Lemma run_op_services (op : pool_op) (lb : LoadBalancer) :
  services (run_op op lb) = services lb.
Proof.
  destruct op as [|s|s|]; simpl; [| | |done].
  - apply get_next_service_lists.
  - unfold mark_unhealthy. by case_decide.
  - unfold mark_healthy. by case_decide.
Qed.

Lemma run_op_next_healthy (lb : LoadBalancer) :
  healthy_services (run_op OpNext lb) = healthy_services lb.
Proof.
  simpl. apply get_next_service_lists.
Qed.

(** The data-model invariant does not survive a recovery: after B has been
    taken out of the pool [A; B; C], marking it healthy again leaves the
    healthy list [A; C; B], which is no subsequence of [A; B; C]. *)
Lemma ordered_inv_broken_by_mark_healthy :
  ordered_inv
    (run_op (OpMarkUnhealthy "http://localhost:8002")
       (LoadBalancer_init BACKEND_SERVICES)) ∧
  ¬ ordered_inv
      (run_op (OpMarkHealthy "http://localhost:8002")
         (run_op (OpMarkUnhealthy "http://localhost:8002")
            (LoadBalancer_init BACKEND_SERVICES))).
Proof.
  split.
  - split_and!.
    + by apply is_sublist_spec.
    + apply (bool_decide_unpack _). vm_compute. exact I.
    + apply (bool_decide_unpack _). vm_compute. exact I.
  - intros [Hsub _]. apply is_sublist_spec in Hsub. vm_compute in Hsub.
    discriminate.
Qed.

Lemma run_op_pool_inv (op : pool_op) (lb : LoadBalancer) :
  pool_inv lb → pool_inv (run_op op lb).
Proof.
  intros (Hsub & Hnd & Hnds).
  unfold pool_inv. rewrite run_op_services. split_and!; [| |done].
  - destruct op as [|s|s|]; [by rewrite run_op_next_healthy| | |done]; simpl.
    + unfold mark_unhealthy. case_decide; [|done]. simpl.
      etrans; [|exact Hsub]. apply sublist_subseteq, list_remove_sublist.
    + unfold mark_healthy. case_decide as Hc; [|done]. simpl.
      destruct Hc as [_ Hin]. intros x [?| ->%list_elem_of_singleton]%elem_of_app;
        [by apply Hsub | done].
  - destruct op as [|s|s|]; [by rewrite run_op_next_healthy| | |done]; simpl.
    + unfold mark_unhealthy. case_decide; [|done]. simpl.
      eapply sublist_NoDup; [exact Hnd | apply list_remove_sublist].
    + unfold mark_healthy. case_decide as Hc; [|done]. simpl.
      destruct Hc as [Hout _]. apply NoDup_app. split_and!; [done| |].
      * by intros x Hx ->%list_elem_of_singleton.
      * apply NoDup_singleton.
Qed.

Lemma run_op_ordered_inv (op : pool_op) (lb : LoadBalancer) :
  (∀ s, op ≠ OpMarkHealthy s) → ordered_inv lb → ordered_inv (run_op op lb).
Proof.
  intros Hop (Hord & Hnd & Hnds). unfold ordered_inv.
  rewrite run_op_services. split_and!; [| |done].
  - destruct op as [|s|s|]; [by rewrite run_op_next_healthy| | |done]; simpl.
    + unfold mark_unhealthy. case_decide; [|done]. simpl.
      etrans; [apply list_remove_sublist | done].
    + by destruct (Hop s).
  - destruct op as [|s|s|]; [by rewrite run_op_next_healthy| | |done]; simpl.
    + unfold mark_unhealthy. case_decide; [|done]. simpl.
      eapply sublist_NoDup; [exact Hnd | apply list_remove_sublist].
    + by destruct (Hop s).
Qed.

(** C5 (pool invariant, as the operations keep it).  Every pool operation
    keeps the configured list unchanged and preserves: each healthy
    endpoint is a configured one, and neither list repeats an endpoint.
    Selection, [mark_unhealthy] and the status snapshot also preserve that
    the healthy list is an order-preserving subsequence of the configured
    list. *)
Theorem pool_inv_preserved (op : pool_op) (lb : LoadBalancer) :
  pool_inv lb →
  pool_inv (run_op op lb) ∧
  services (run_op op lb) = services lb ∧
  (ordered_inv lb → (∀ s, op ≠ OpMarkHealthy s) → ordered_inv (run_op op lb)).
Proof.
  intros Hinv. split_and!.
  - by apply run_op_pool_inv.
  - apply run_op_services.
  - intros Hord Hop. by apply run_op_ordered_inv.
Qed.

Lemma pool_inv_preserved_witness :
  pool_inv
    (run_op (OpMarkUnhealthy "http://localhost:8002")
       (LoadBalancer_init BACKEND_SERVICES)) ∧
  pool_inv
    (run_op (OpMarkHealthy "http://localhost:8002")
       (run_op (OpMarkUnhealthy "http://localhost:8002")
          (LoadBalancer_init BACKEND_SERVICES))).
Proof.
  assert (pool_inv
            (run_op (OpMarkUnhealthy "http://localhost:8002")
               (LoadBalancer_init BACKEND_SERVICES))) as Hinv.
  { split_and!.
    - apply sublist_subseteq, is_sublist_spec. reflexivity.
    - apply (bool_decide_unpack _). vm_compute. exact I.
    - apply (bool_decide_unpack _). vm_compute. exact I. }
  split; [exact Hinv|].
  apply (pool_inv_preserved (OpMarkHealthy "http://localhost:8002") _ Hinv).
Defined.

(** A pool built from a configured list without repetition starts inside
    both invariants, so every state the operations reach satisfies
    [pool_inv]. *)
Lemma pool_inv_init (svcs : list string) :
  NoDup svcs → ordered_inv (LoadBalancer_init svcs) ∧ pool_inv (LoadBalancer_init svcs).
Proof. intros Hnd. by split; split_and!. Qed.

Lemma pool_inv_run_ops (ops : list pool_op) (lb : LoadBalancer) :
  pool_inv lb → pool_inv (run_ops ops lb).
Proof.
  revert lb. induction ops as [|op ops IH]; intros lb Hinv; [done|].
  simpl. apply IH. by apply run_op_pool_inv.
Qed.

Lemma rotate_small {A} (k : nat) (l : list A) :
  rotate k l = rotate (k `mod` length l) l.
Proof. unfold rotate. by rewrite Nat.Div0.mod_mod. Qed.

(** Round robin after a recovery: in the pool [A; B; C], once B has been
    taken out and put back, three selections hand out A, C, B, and no
    rotation of that sequence follows the configured order A, B, C. *)
Lemma round_robin_not_configured_order :
  (next_n 3
     (run_ops [OpMarkUnhealthy "http://localhost:8002";
               OpMarkHealthy "http://localhost:8002"]
        (LoadBalancer_init BACKEND_SERVICES))).1
  = [Ok "http://localhost:8001"; Ok "http://localhost:8003";
     Ok "http://localhost:8002"] ∧
  ¬ configured_order
      ["http://localhost:8001"; "http://localhost:8003"; "http://localhost:8002"]
      BACKEND_SERVICES.
Proof.
  split; [reflexivity|].
  intros [k Hk]. rewrite rotate_small in Hk.
  pose proof (Nat.mod_upper_bound k 3) as Hlt.
  simpl length in Hk.
  destruct (k `mod` 3)%nat as [|[|[|?]]]; [| | |lia];
    apply is_sublist_spec in Hk; vm_compute in Hk; discriminate.
Qed.

(** C1 (round robin, as the code orders it).  [get_next_service] fails
    with the 503 exception exactly when the healthy list is empty;
    otherwise it returns the entry at slot [cursor mod N] and advances the
    cursor by one.  Over N consecutive calls the pool hands out the healthy
    list rotated to start at that slot, so every entry once (every endpoint
    exactly once when the list repeats none), and the call after those
    returns what the first returned.  The order is the healthy list's own;
    it is the configured order whenever the healthy list is a subsequence
    of the configured list. *)
Theorem round_robin_rotation (lb : LoadBalancer) :
  ((get_next_service lb).1 = Raise no_healthy ↔ healthy_services lb = []) ∧
  (healthy_services lb ≠ [] →
   let N := length (healthy_services lb) in
   let outs := rotate (slot (current_index lb) N) (healthy_services lb) in
   (∃ s, healthy_services lb !! slot (current_index lb) N = Some s ∧
         get_next_service lb = (Ok s, set_cursor (current_index lb + 1) lb)) ∧
   next_n N lb = (Ok <$> outs, set_cursor (current_index lb + Z.of_nat N) lb) ∧
   (∃ s, (next_n (S N) lb).1 !! 0%nat = Some (Ok s) ∧
         (next_n (S N) lb).1 !! N = Some (Ok s)) ∧
   outs ≡ₚ healthy_services lb ∧
   (NoDup (healthy_services lb) → NoDup outs) ∧
   (healthy_services lb `sublist_of` services lb →
    configured_order outs (services lb))).
Proof.
  split.
  - split.
    + intros Hr. destruct (healthy_services lb) as [|x l] eqn:Hh; [done|].
      destruct (get_next_service_nonempty lb) as (s & _ & Hs); [by rewrite Hh|].
      by rewrite Hs in Hr.
    + intros Hh. by rewrite get_next_service_empty.
  - intros Hne N outs.
    assert (0 < N)%nat as Hpos.
    { subst N. destruct (healthy_services lb); [done | simpl; lia]. }
    split_and!.
    + by apply get_next_service_nonempty.
    + by apply next_n_rotation.
    + destruct (next_n_nonempty (S N) lb Hne) as (_ & _ & Hk).
      destruct (get_next_service_nonempty lb Hne) as (s & Hs & _).
      exists s. rewrite !Hk by lia. split.
      * by rewrite Z.add_0_r, Hs.
      * unfold slot in *. fold N. fold N in Hs.
        replace ((current_index lb + Z.of_nat N) `mod` Z.of_nat N)
          with (current_index lb `mod` Z.of_nat N); [by rewrite Hs|].
        rewrite <-(Z.mul_1_l (Z.of_nat N)) at 2.
        rewrite Z.mod_add by lia. done.
    + apply rotate_perm.
    + intros Hnd. subst outs. by rewrite rotate_perm.
    + intros Hsub. exists (N - slot (current_index lb) N)%nat.
      subst outs N. rewrite rotate_back; [done|]. by apply slot_lt.
Qed.

Lemma round_robin_rotation_witness :
  healthy_services (LoadBalancer_init BACKEND_SERVICES) ≠ [] ∧
  next_n 3 (LoadBalancer_init BACKEND_SERVICES)
  = (Ok <$> BACKEND_SERVICES,
     set_cursor 3 (LoadBalancer_init BACKEND_SERVICES)).
Proof.
  assert (healthy_services (LoadBalancer_init BACKEND_SERVICES) ≠ []) as Hne
    by discriminate.
  split; [exact Hne|].
  exact (proj1 (proj2 (proj2 (round_robin_rotation
                                (LoadBalancer_init BACKEND_SERVICES)) Hne))).
Defined.

(* ===================================================================== *)
(** ** The rate limiter                                                   *)
(* ===================================================================== *)

Section Limiter.
Implicit Types (rl : RateLimiter) (c : string) (t now : instant)
  (d : gmap string (list instant)).

Lemma dd_getitem_insert c d (v : list instant) :
  dd_getitem c (<[c := v]> d) = (v, <[c := v]> d).
Proof. unfold dd_getitem. by rewrite lookup_insert_eq. Qed.

Lemma dd_getitem_dom c d : dom (dd_getitem c d).2 = {[c]} ∪ dom d.
Proof.
  unfold dd_getitem. destruct (d !! c) as [v|] eqn:Hc; simpl.
  - apply elem_of_dom_2 in Hc. symmetry. apply subseteq_union_1_L.
    by apply singleton_subseteq_l.
  - by rewrite dom_insert_L.
Qed.

Lemma dd_getitem_stored c d : (dd_getitem c d).1 = default [] (d !! c).
Proof. unfold dd_getitem. by destruct (d !! c). Qed.

(** Pruning rebinds the client's entry to the timestamps still in the
    window, whether or not the client had an entry. *)
Lemma prune_eq c t rl :
  prune c t rl = <[c := in_window (window_seconds rl) t (stored rl c)]> (requests rl).
Proof.
  unfold prune, stored, dd_getitem.
  destruct (requests rl !! c); simpl; [done|]. by rewrite insert_insert_eq.
Qed.

Lemma is_allowed_eq c t rl :
  is_allowed c t rl =
  let kept := in_window (window_seconds rl) t (stored rl c) in
  if decide (max_requests rl ≤ Z.of_nat (length kept))
  then (false, set_requests (<[c := kept]> (requests rl)) rl)
  else (true, set_requests (<[c := kept ++ [t]]> (requests rl)) rl).
Proof.
  unfold is_allowed. rewrite prune_eq, dd_getitem_insert. simpl.
  case_decide; [done|]. rewrite dd_getitem_insert.
  by rewrite insert_insert_eq.
Qed.

Lemma get_remaining_requests_eq c t rl :
  get_remaining_requests c t rl =
  let kept := in_window (window_seconds rl) t (stored rl c) in
  (Z.max 0 (max_requests rl - Z.of_nat (length kept)),
   set_requests (<[c := kept]> (requests rl)) rl).
Proof.
  unfold get_remaining_requests. by rewrite prune_eq, dd_getitem_insert.
Qed.

Lemma get_reset_time_eq c t rl :
  get_reset_time c t rl =
  (match list_min (stored rl c) with
   | None => 0
   | Some oldest => Z.max 0 (oldest + window_seconds rl - t)
   end,
   set_requests (dd_getitem c (requests rl)).2 rl).
Proof.
  unfold get_reset_time, stored.
  rewrite <-dd_getitem_stored.
  destruct (dd_getitem c (requests rl)) as [cur d1]. simpl.
  by destruct (list_min cur).
Qed.

Lemma stored_set_insert c rl (v : list instant) :
  stored (set_requests (<[c := v]> (requests rl)) rl) c = v.
Proof. unfold stored. simpl. by rewrite lookup_insert_eq. Qed.

Lemma in_window_same w t (k : nat) :
  0 < w → in_window w t (replicate k t) = replicate k t.
Proof.
  intros Hw. unfold in_window. induction k as [|k IH]; [done|].
  cbn [replicate]. rewrite filter_cons_True by lia. f_equal. exact IH.
Qed.

Lemma in_window_expired w t (k : nat) :
  in_window w (t + w) (replicate k t) = [].
Proof.
  unfold in_window. induction k as [|k IH]; [done|].
  cbn [replicate]. rewrite filter_cons_False by lia. exact IH.
Qed.

End Limiter.

Section Window.
Implicit Types (rl : RateLimiter) (c : string) (t now : instant).

Lemma is_allowed_seq_app c (ts1 ts2 : list instant) : ∀ rl,
  is_allowed_seq c (ts1 ++ ts2) rl =
  ((is_allowed_seq c ts1 rl).1 ++ (is_allowed_seq c ts2 (is_allowed_seq c ts1 rl).2).1,
   (is_allowed_seq c ts2 (is_allowed_seq c ts1 rl).2).2).
Proof.
  induction ts1 as [|t ts1 IH]; intros rl; simpl.
  - by destruct (is_allowed_seq c ts2 rl).
  - destruct (is_allowed c t rl) as [b rl1]. rewrite IH.
    destruct (is_allowed_seq c ts1 rl1) as [bs rl2]. simpl.
    by destruct (is_allowed_seq c ts2 rl2).
Qed.

(** A burst at one instant: while the count stays within the limit,
    every call is accepted and its instant recorded. *)
Lemma is_allowed_burst c t (n : nat) : ∀ (k : nat) rl,
  0 < window_seconds rl →
  in_window (window_seconds rl) t (stored rl c) = replicate k t →
  Z.of_nat (k + n) ≤ max_requests rl →
  ∃ rl',
    is_allowed_seq c (replicate n t) rl = (replicate n true, rl') ∧
    max_requests rl' = max_requests rl ∧
    window_seconds rl' = window_seconds rl ∧
    in_window (window_seconds rl) t (stored rl' c) = replicate (k + n) t.
Proof.
  induction n as [|n IH]; intros k rl Hw Hkept Hle.
  - exists rl. by rewrite Nat.add_0_r.
  - cbn [replicate is_allowed_seq]. rewrite is_allowed_eq. cbn zeta.
    rewrite Hkept, length_replicate.
    rewrite decide_False by lia.
    set (rl1 := set_requests _ rl).
    destruct (IH (S k) rl1) as (rl' & Hseq & Hmax & Hwin & Hst).
    + done.
    + subst rl1. rewrite stored_set_insert. simpl.
      rewrite <-replicate_S_end. by apply in_window_same.
    + simpl. lia.
    + exists rl'. rewrite Hseq. split_and!; [done..|].
      replace (k + S n)%nat with (S k + n)%nat by lia. exact Hst.
Qed.

(** The window at work, for any limit [m > 0] and window [w > 0]: from a
    client with nothing in the window, [m] calls at one instant are
    accepted, one more is rejected, and a call [w] later is accepted. *)
Lemma burst_reject_recover c t (m : nat) rl :
  (0 < m)%nat → max_requests rl = Z.of_nat m → 0 < window_seconds rl →
  in_window (window_seconds rl) t (stored rl c) = [] →
  (is_allowed_seq c (replicate m t ++ [t; t + window_seconds rl]) rl).1
  = replicate m true ++ [false; true].
Proof.
  intros Hm Hmax Hw Hnone.
  destruct (is_allowed_burst c t m 0 rl) as (rl' & Hseq & Hmax' & Hwin' & Hst);
    [done | done | simpl; lia |].
  rewrite is_allowed_seq_app, Hseq. simpl. f_equal.
  rewrite is_allowed_eq. cbn zeta. rewrite Hwin', Hst, length_replicate.
  rewrite decide_True by lia.
  rewrite is_allowed_eq. cbn zeta. rewrite stored_set_insert. simpl.
  rewrite Hwin', in_window_expired. simpl.
  rewrite decide_False by lia. done.
Qed.

End Window.

(** C2 (sliding window).  [is_allowed] rebinds the client's list to the
    timestamps [t'] with [now - t' < window_seconds]; when at least
    [max_requests] of them are left it answers False and records nothing,
    otherwise it appends [now] and answers True.  With five requests per
    sixty seconds, for a client with nothing in the window: five calls at
    one instant are accepted, a sixth at that instant is rejected, and a
    call sixty seconds after that instant is accepted again. *)
Theorem is_allowed_sliding_window (rl : RateLimiter) (c : string) (now : instant) :
  is_allowed c now rl =
    (let kept := in_window (window_seconds rl) now (stored rl c) in
     if decide (max_requests rl ≤ Z.of_nat (length kept))
     then (false, set_requests (<[c := kept]> (requests rl)) rl)
     else (true, set_requests (<[c := kept ++ [now]]> (requests rl)) rl)) ∧
  (max_requests rl = 5 → window_seconds rl = 60 →
   in_window 60 now (stored rl c) = [] →
   (is_allowed_seq c [now; now; now; now; now; now; now + 60] rl).1
   = [true; true; true; true; true; false; true]).
Proof.
  split; [apply is_allowed_eq|].
  intros Hmax Hwin Hnone.
  pose proof (burst_reject_recover c now 5 rl) as H.
  rewrite Hwin in H. apply H; [lia | done | lia | done].
Qed.

Lemma is_allowed_sliding_window_witness :
  (is_allowed_seq "127.0.0.1" [1000; 1000; 1000; 1000; 1000; 1000; 1060]
     rate_limiter0).1
  = [true; true; true; true; true; false; true].
Proof.
  apply (proj2 (is_allowed_sliding_window rate_limiter0 "127.0.0.1" 1000));
    reflexivity.
Defined.

Section Queries.
Implicit Types (rl : RateLimiter) (c : string) (t now : instant).

Lemma in_window_idemp w now (l : list instant) :
  in_window w now (in_window w now l) = in_window w now l.
Proof.
  unfold in_window. induction l as [|x l IH]; [done|].
  rewrite filter_cons. case_decide; [|exact IH].
  rewrite filter_cons_True by done. f_equal. exact IH.
Qed.

(** Called right after a pruning query, at the same reading of the clock,
    [get_reset_time] does return the specified reset time. *)
Lemma get_reset_time_after_prune c now rl :
  (get_reset_time c now (get_remaining_requests c now rl).2).1
  = reset_in_spec c now rl.
Proof.
  rewrite get_remaining_requests_eq. cbn zeta. cbn [snd].
  rewrite get_reset_time_eq. cbn [fst].
  rewrite stored_set_insert. unfold reset_in_spec. done.
Qed.

Lemma is_allowed_dom c t rl :
  dom (requests (is_allowed c t rl).2) = {[c]} ∪ dom (requests rl).
Proof.
  rewrite is_allowed_eq. cbn zeta. case_decide; simpl; by rewrite dom_insert_L.
Qed.

Lemma get_remaining_requests_dom c t rl :
  dom (requests (get_remaining_requests c t rl).2) = {[c]} ∪ dom (requests rl).
Proof. rewrite get_remaining_requests_eq. simpl. by rewrite dom_insert_L. Qed.

Lemma get_reset_time_dom c t rl :
  dom (requests (get_reset_time c t rl).2) = {[c]} ∪ dom (requests rl).
Proof. rewrite get_reset_time_eq. simpl. apply dd_getitem_dom. Qed.

End Queries.

(** C4 ([get_reset_time] and pruning).  Unlike [is_allowed] and
    [get_remaining_requests], [get_reset_time] takes the minimum over the
    stored list as it stands.  After requests at instants 0 and 50, asked at
    instant 100 it finds the expired timestamp 0 and answers 0, where the
    oldest timestamp still in the window is 50 and the specified answer is
    10. *)
Theorem get_reset_time_reads_unpruned :
  stored (is_allowed_seq "127.0.0.1" [0; 50] rate_limiter0).2 "127.0.0.1" = [0; 50] ∧
  in_window 60 100 [0; 50] = [50] ∧
  (get_reset_time "127.0.0.1" 100
     (is_allowed_seq "127.0.0.1" [0; 50] rate_limiter0).2).1 = 0 ∧
  reset_in_spec "127.0.0.1" 100
    (is_allowed_seq "127.0.0.1" [0; 50] rate_limiter0).2 = 10.
Proof. by vm_compute. Qed.

(** In the request path [get_reset_time] follows a pruning query, which
    hides the difference unless the oldest timestamp expires between the
    two readings of the clock: pruned at instant 59 and asked at instant
    60, the answer is again 0 where the specified one is 50. *)
Example get_reset_time_between_readings :
  (get_reset_time "127.0.0.1" 60
     (get_remaining_requests "127.0.0.1" 59
        (is_allowed_seq "127.0.0.1" [0; 50] rate_limiter0).2).2).1 = 0 ∧
  reset_in_spec "127.0.0.1" 60
    (get_remaining_requests "127.0.0.1" 59
       (is_allowed_seq "127.0.0.1" [0; 50] rate_limiter0).2).2 = 50.
Proof. by vm_compute. Qed.

(** C10 (queries on a client never seen).  For a client with no entry in
    the map, under a non-negative limit, [get_remaining_requests] answers
    [max_requests] and [get_reset_time] answers 0; and each of
    [is_allowed], [get_remaining_requests] and [get_reset_time] leaves the
    map with an entry for that client, one more tracked identity than
    before. *)
Theorem unseen_client_queries (rl : RateLimiter) (c : string) (now : instant) :
  0 ≤ max_requests rl →
  requests rl !! c = None →
  (get_remaining_requests c now rl).1 = max_requests rl ∧
  (get_reset_time c now rl).1 = 0 ∧
  (c ∉ dom (requests rl)) ∧
  dom (requests (is_allowed c now rl).2) = {[c]} ∪ dom (requests rl) ∧
  dom (requests (get_remaining_requests c now rl).2) = {[c]} ∪ dom (requests rl) ∧
  dom (requests (get_reset_time c now rl).2) = {[c]} ∪ dom (requests rl) ∧
  size (requests (get_reset_time c now rl).2) = S (size (requests rl)).
Proof.
  intros Hmax Hnone.
  assert (stored rl c = []) as Hst by (unfold stored; by rewrite Hnone).
  split_and!.
  - rewrite get_remaining_requests_eq. cbn zeta. cbn [fst].
    rewrite Hst. simpl. lia.
  - rewrite get_reset_time_eq. cbn [fst]. by rewrite Hst.
  - by apply not_elem_of_dom.
  - apply is_allowed_dom.
  - apply get_remaining_requests_dom.
  - apply get_reset_time_dom.
  - rewrite get_reset_time_eq. cbn [snd]. unfold dd_getitem. rewrite Hnone.
    simpl. by apply map_size_insert_None.
Qed.

Lemma unseen_client_queries_witness :
  (get_remaining_requests "127.0.0.1" 1000 rate_limiter0).1 = 5 ∧
  (get_reset_time "127.0.0.1" 1000 rate_limiter0).1 = 0 ∧
  size (requests (get_reset_time "127.0.0.1" 1000 rate_limiter0).2) = 1%nat.
Proof.
  destruct (unseen_client_queries rate_limiter0 "127.0.0.1" 1000)
    as (Hrem & Hreset & _ & _ & _ & _ & Hsize); [simpl; lia | reflexivity |].
  exact (conj Hrem (conj Hreset Hsize)).
Defined.

(* ===================================================================== *)
(** ** The request path                                                   *)
(* ===================================================================== *)

(** With a single healthy endpoint, every selection returns it. *)
Lemma next_n_single (x : string) (n : nat) : ∀ lb : LoadBalancer,
  healthy_services lb = [x] → (next_n n lb).1 = replicate n (Ok x).
Proof.
  induction n as [|n IH]; intros lb Hone; [done|].
  destruct (get_next_service_nonempty lb) as (s & Hs & Hstep); [by rewrite Hone|].
  rewrite Hone in Hs. apply list_lookup_singleton_Some in Hs as [_ <-].
  cbn [next_n]. rewrite Hstep.
  specialize (IH (set_cursor (current_index lb + 1) lb) Hone).
  destruct (next_n n (set_cursor (current_index lb + 1) lb)) as [rs lb2].
  cbn [fst] in *. by rewrite IH.
Qed.

(** A reply that is no JSON is a malformed response, and yet no transport
    failure for the handler: with the first backend answering 200 with a
    body that does not parse, the request is answered 500, not 503, and
    the backend keeps its place in the healthy list. *)
Lemma undecodable_reply_not_demoted :
  status_of
    (http_exception_handler
       (proxy_request "data" (get_request "/api/data")
          {| clock := still_clock 0; stamp := "2024-01-01T00:00:00";
             backend := λ _, BadJson 200 "Expecting value" |}
          gateway0))
  = Some 500 ∧
  sent (proxy_request "data" (get_request "/api/data")
          {| clock := still_clock 0; stamp := "2024-01-01T00:00:00";
             backend := λ _, BadJson 200 "Expecting value" |}
          gateway0)
  = [outbound_for "http://localhost:8001" "data" (get_request "/api/data")] ∧
  healthy_services
    (load_balancer
       (after (proxy_request "data" (get_request "/api/data")
                 {| clock := still_clock 0; stamp := "2024-01-01T00:00:00";
                    backend := λ _, BadJson 200 "Expecting value" |}
                 gateway0)))
  = BACKEND_SERVICES.
Proof. split_and!; reflexivity. Qed.

(** C3 (a transport failure demotes the backend).  When the forwarded
    request fails with [httpx.RequestError], the handler marks the selected
    backend unhealthy, so that one occurrence of it leaves the healthy list
    (the only one, when the list repeats no endpoint), and raises the 503
    exception whose message names that backend, which the client receives
    as a 503 response; exactly one backend request was sent, so nothing
    was retried.  If the healthy list held that backend and one other,
    every later selection returns the other.  A reply whose body is no
    JSON is not such a failure: it is answered 500 and the pool stays as
    selection left it. *)
Theorem transport_failure_demotes (path : string) (request : Request) (env : Env)
    (g : Gateway) (service_url : string) (lb1 : LoadBalancer) :
  get_next_service (load_balancer g) = (Ok service_url, lb1) →
  (∀ details,
     backend env (outbound_for service_url path request) = RequestError details →
     returned (proxy_request path request env g)
     = Raise (unavailable service_url details env) ∧
     load_balancer (after (proxy_request path request env g))
     = mark_unhealthy service_url lb1 ∧
     healthy_services (load_balancer (after (proxy_request path request env g)))
     = list_remove service_url (healthy_services (load_balancer g)) ∧
     S (length (healthy_services
                  (load_balancer (after (proxy_request path request env g)))))
     = length (healthy_services (load_balancer g)) ∧
     (NoDup (healthy_services (load_balancer g)) →
      service_url ∉
        healthy_services (load_balancer (after (proxy_request path request env g)))) ∧
     services (load_balancer (after (proxy_request path request env g)))
     = services (load_balancer g) ∧
     current_index (load_balancer (after (proxy_request path request env g)))
     = current_index (load_balancer g) + 1 ∧
     rate_limiter (after (proxy_request path request env g)) = rate_limiter g ∧
     sent (proxy_request path request env g)
     = [outbound_for service_url path request] ∧
     (∃ response,
        returned (http_exception_handler (proxy_request path request env g))
        = Ok response ∧
        resp_status response = 503 ∧
        resp_content response =
        JObj [("detail",
               JObj [("error", JStr "Service unavailable");
                     ("message",
                      JStr ("Failed to connect to backend service: " +:+ service_url));
                     ("details", JStr details);
                     ("timestamp", JStr (stamp env))])]) ∧
     (∀ other,
        other ≠ service_url →
        healthy_services (load_balancer g) = [service_url; other] ∨
        healthy_services (load_balancer g) = [other; service_url] →
        ∀ n, (next_n n (load_balancer (after (proxy_request path request env g)))).1
             = replicate n (Ok other))) ∧
  (∀ code msg,
     backend env (outbound_for service_url path request) = BadJson code msg →
     (∃ response,
        returned (http_exception_handler (proxy_request path request env g))
        = Ok response ∧ resp_status response = 500) ∧
     load_balancer (after (proxy_request path request env g)) = lb1 ∧
     healthy_services (load_balancer (after (proxy_request path request env g)))
     = healthy_services (load_balancer g) ∧
     sent (proxy_request path request env g)
     = [outbound_for service_url path request]).
Proof.
  intros Hnext.
  pose proof (get_next_service_lists (load_balancer g)) as [Hh Hsv].
  rewrite Hnext in Hh, Hsv. cbn [snd] in Hh, Hsv.
  assert (service_url ∈ healthy_services (load_balancer g)) as Hin.
  { destruct (healthy_services (load_balancer g)) as [|x l] eqn:Hl.
    - by rewrite get_next_service_empty in Hnext.
    - destruct (get_next_service_nonempty (load_balancer g)) as (s & Hs & Heq);
        [by rewrite Hl|].
      rewrite Heq in Hnext. injection Hnext as -> _.
      rewrite <-Hl. by eapply list_elem_of_lookup_2. }
  assert (current_index lb1 = current_index (load_balancer g) + 1) as Hcur.
  { destruct (healthy_services (load_balancer g)) as [|x l] eqn:Hl.
    - by apply elem_of_nil in Hin.
    - destruct (get_next_service_nonempty (load_balancer g)) as (s & _ & Heq);
        [by rewrite Hl|].
      rewrite Heq in Hnext. by injection Hnext as _ <-. }
  split.
  - intros details Hfail.
    assert (proxy_request path request env g =
            {| returned := Raise (unavailable service_url details env);
               after := {| load_balancer := mark_unhealthy service_url lb1;
                           rate_limiter := rate_limiter g |};
               sent := [outbound_for service_url path request] |}) as ->.
    { unfold proxy_request. rewrite Hnext. cbn zeta. by rewrite Hfail. }
    assert (healthy_services (mark_unhealthy service_url lb1)
            = list_remove service_url (healthy_services (load_balancer g))) as Hrm.
    { unfold mark_unhealthy. rewrite Hh. by rewrite decide_True. }
    cbn [returned after sent load_balancer rate_limiter].
    split_and!; try done.
    + rewrite Hrm. by apply list_remove_length.
    + intros Hnd. rewrite Hrm, list_remove_NoDup by done.
      intros [Hne _]%list_elem_of_filter. by apply Hne.
    + unfold mark_unhealthy. by case_decide.
    + unfold mark_unhealthy. by case_decide.
    + eexists. split; [reflexivity|]. done.
    + intros other Hne Hpool n. apply next_n_single. rewrite Hrm.
      destruct Hpool as [-> | ->]; simpl.
      * by rewrite decide_True.
      * rewrite decide_False by done. by rewrite decide_True.
  - intros code msg Hbad.
    assert (proxy_request path request env g =
            {| returned := Raise (internal_error msg env);
               after := {| load_balancer := lb1; rate_limiter := rate_limiter g |};
               sent := [outbound_for service_url path request] |}) as ->.
    { unfold proxy_request. rewrite Hnext. cbn zeta. by rewrite Hbad. }
    cbn [returned after sent load_balancer rate_limiter].
    split_and!; try done.
    eexists. split; [reflexivity|]. done.
Qed.

Lemma transport_failure_demotes_witness :
  (next_n 3
     (load_balancer
        (after (proxy_request "items" (get_request "/api/items") (unreachable_env 0)
                  {| load_balancer :=
                       LoadBalancer_init ["http://localhost:8001"; "http://localhost:8002"];
                     rate_limiter := rate_limiter0 |})))).1
  = replicate 3 (Ok "http://localhost:8002").
Proof.
  refine (proj2 (proj2 (proj2 (proj2 (proj2 (proj2 (proj2 (proj2 (proj2 (proj2
            (proj1
               (transport_failure_demotes "items" (get_request "/api/items")
                  (unreachable_env 0)
                  {| load_balancer :=
                       LoadBalancer_init
                         ["http://localhost:8001"; "http://localhost:8002"];
                     rate_limiter := rate_limiter0 |}
                  "http://localhost:8001"
                  (set_cursor 1
                     (LoadBalancer_init
                        ["http://localhost:8001"; "http://localhost:8002"]))
                  _)
               "connection refused" _))))))))))
            "http://localhost:8002" _ _ 3%nat).
  - reflexivity.
  - reflexivity.
  - discriminate.
  - left. reflexivity.
Defined.

(** A reply whose body is not JSON is not a transport failure for the
    handler: it is answered 500 and the backend keeps its place. *)
Lemma undecodable_body_is_internal_error (path : string) (request : Request)
    (env : Env) (g : Gateway) (service_url msg : string) (code : Z)
    (lb1 : LoadBalancer) :
  get_next_service (load_balancer g) = (Ok service_url, lb1) →
  backend env (outbound_for service_url path request) = BadJson code msg →
  returned (proxy_request path request env g) = Raise (internal_error msg env) ∧
  load_balancer (after (proxy_request path request env g)) = lb1.
Proof.
  intros Hnext Hbad. unfold proxy_request. rewrite Hnext. cbn zeta.
  by rewrite Hbad.
Qed.

Section Middleware.
Implicit Types (request : Request) (env : Env) (g : Gateway).








End Middleware.




(* ===================================================================== *)
(** ** More on the pool: exclusion, recovery, cursor, snapshot            *)
(* ===================================================================== *)

Section PoolMore.
Implicit Types (lb : LoadBalancer) (e s : string) (l h : list string).

(** Whatever selection returns is on the healthy list. *)
Lemma get_next_service_member lb s lb' :
  get_next_service lb = (Ok s, lb') → s ∈ healthy_services lb.
Proof.
  intros Hsel. destruct (healthy_services lb) as [|x l] eqn:Hh.
  - by rewrite get_next_service_empty in Hsel.
  - destruct (get_next_service_nonempty lb) as (s' & Hs & Heq); [by rewrite Hh|].
    rewrite Heq in Hsel. injection Hsel as -> _.
    rewrite <-Hh. by eapply list_elem_of_lookup_2.
Qed.

Lemma list_remove_snoc_notin e h : e ∉ h → list_remove e (h ++ [e]) = h.
Proof.
  induction h as [|y h IH]; intros Hout; simpl.
  - by rewrite decide_True.
  - apply not_elem_of_cons in Hout as [Hne Hout].
    rewrite decide_False by done. by rewrite IH.
Qed.

Lemma run_op_keeps_out e (op : pool_op) lb :
  op ≠ OpMarkHealthy e →
  e ∉ healthy_services lb → e ∉ healthy_services (run_op op lb).
Proof.
  intros Hop Hout. destruct op as [|s|s|]; [by rewrite run_op_next_healthy| | |done];
    simpl.
  - unfold mark_unhealthy. case_decide; [|done]. simpl.
    intros Hin. apply Hout.
    by apply (sublist_subseteq _ _ (list_remove_sublist s (healthy_services lb))).
  - unfold mark_healthy. case_decide; [|done]. simpl.
    intros [Hin| ->%list_elem_of_singleton]%elem_of_app; [by apply Hout|].
    by apply Hop.
Qed.

Lemma run_ops_keeps_out e (ops : list pool_op) : ∀ lb,
  OpMarkHealthy e ∉ ops →
  e ∉ healthy_services lb → e ∉ healthy_services (run_ops ops lb).
Proof.
  induction ops as [|op ops IH]; intros lb Hops Hout; [done|].
  apply not_elem_of_cons in Hops as [Hop Hops].
  simpl. apply IH; [done|]. apply run_op_keeps_out; [|done].
  intros ->. by apply Hop.
Qed.

Lemma mark_unhealthy_gone e lb :
  NoDup (healthy_services lb) → e ∉ healthy_services (mark_unhealthy e lb).
Proof.
  intros Hnd. unfold mark_unhealthy. case_decide; [|done]. simpl.
  rewrite list_remove_NoDup by done.
  intros [Hne _]%list_elem_of_filter. by apply Hne.
Qed.

Lemma run_op_cursor (op : pool_op) lb :
  current_index lb ≤ current_index (run_op op lb) ≤
  current_index lb + Z.of_nat (count_next [op]).
Proof.
  destruct op as [|s|s|]; simpl.
  - destruct (healthy_services lb) as [|x l] eqn:Hh.
    + rewrite get_next_service_empty by done. simpl. lia.
    + destruct (get_next_service_nonempty lb) as (s & _ & ->); [by rewrite Hh|].
      simpl. lia.
  - unfold mark_unhealthy. case_decide; simpl; lia.
  - unfold mark_healthy. case_decide; simpl; lia.
  - lia.
Qed.

Lemma count_next_cons (op : pool_op) (ops : list pool_op) :
  count_next (op :: ops) = (count_next [op] + count_next ops)%nat.
Proof. by destruct op. Qed.

Lemma status_entries_healthy h l :
  length (filter (λ en, status en = "healthy")
            ((λ service,
                {| url := service;
                   status := if decide (service ∈ h) then "healthy" else "unhealthy" |})
               <$> l))
  = length (filter (λ x, x ∈ h) l).
Proof.
  induction l as [|x l IH]; [done|]. rewrite fmap_cons.
  destruct (decide (x ∈ h)) as [Hin|Hout].
  - rewrite (filter_cons_True (λ x, x ∈ h)) by done.
    rewrite filter_cons_True by done.
    simpl. by rewrite IH.
  - rewrite (filter_cons_False (λ x, x ∈ h)) by done.
    rewrite filter_cons_False by (simpl; discriminate).
    exact IH.
Qed.

Lemma filter_member_length h l :
  NoDup h → NoDup l → h ⊆ l → length (filter (λ x, x ∈ h) l) = length h.
Proof.
  intros Hh Hl Hsub. apply Permutation_length, NoDup_Permutation.
  - by apply NoDup_filter.
  - done.
  - intros x. rewrite list_elem_of_filter. split; [by intros [? _]|].
    intros Hx. split; [done | by apply Hsub].
Qed.

End PoolMore.

(** X1 (health exclusion).  On a pool whose healthy list repeats no
    endpoint, once [mark_unhealthy e] has run, no selection returns [e],
    whatever operations follow, as long as none of them is
    [mark_healthy e]. *)
Theorem unhealthy_never_selected (lb : LoadBalancer) (e : string)
    (ops : list pool_op) :
  NoDup (healthy_services lb) →
  OpMarkHealthy e ∉ ops →
  (get_next_service (run_ops ops (mark_unhealthy e lb))).1 ≠ Ok e.
Proof.
  intros Hnd Hops Hsel.
  destruct (get_next_service _) as [r lb'] eqn:Hg. simpl in Hsel. subst r.
  apply get_next_service_member in Hg.
  revert Hg. apply run_ops_keeps_out; [done|]. by apply mark_unhealthy_gone.
Qed.

Lemma unhealthy_never_selected_witness :
  (get_next_service
     (run_ops [OpNext; OpMarkHealthy "http://localhost:8001"; OpNext]
        (mark_unhealthy "http://localhost:8002"
           (LoadBalancer_init BACKEND_SERVICES)))).1
  ≠ Ok "http://localhost:8002".
Proof.
  apply (unhealthy_never_selected (LoadBalancer_init BACKEND_SERVICES)
           "http://localhost:8002"
           [OpNext; OpMarkHealthy "http://localhost:8001"; OpNext]).
  - apply (bool_decide_unpack _). vm_compute. exact I.
  - intros H. apply elem_of_cons in H as [H|H]; [discriminate|].
    apply elem_of_cons in H as [H|H]; [discriminate|].
    apply elem_of_cons in H as [H|H]; [discriminate|].
    by apply elem_of_nil in H.
Defined.

(** X2 (recovery).  With every endpoint out of the healthy list, selection
    fails with the 503 exception and leaves the pool alone; as soon as one
    configured endpoint is marked healthy, the next selection returns it,
    wherever the cursor stands. *)
Theorem recovery_resumes_selection (lb : LoadBalancer) (e : string) :
  healthy_services lb = [] →
  e ∈ services lb →
  get_next_service lb = (Raise no_healthy, lb) ∧
  get_next_service (mark_healthy e lb)
  = (Ok e, set_cursor (current_index lb + 1) (mark_healthy e lb)).
Proof.
  intros Hempty Hin. split; [by apply get_next_service_empty|].
  assert (mark_healthy e lb =
          {| services := services lb; current_index := current_index lb;
             healthy_services := [e] |}) as Hm.
  { unfold mark_healthy. rewrite Hempty. rewrite decide_True; [done|].
    split; [apply not_elem_of_nil | done]. }
  destruct (get_next_service_nonempty (mark_healthy e lb)) as (s & Hs & ->).
  { by rewrite Hm. }
  rewrite Hm in Hs. simpl in Hs.
  apply list_lookup_singleton_Some in Hs as [_ ->]. by rewrite Hm.
Qed.

Lemma recovery_resumes_selection_witness :
  get_next_service
    (mark_healthy "http://localhost:8003"
       {| services := BACKEND_SERVICES; current_index := 7;
          healthy_services := [] |})
  = (Ok "http://localhost:8003",
     {| services := BACKEND_SERVICES; current_index := 8;
        healthy_services := ["http://localhost:8003"] |}).
Proof.
  refine (proj2 (recovery_resumes_selection
                   {| services := BACKEND_SERVICES; current_index := 7;
                      healthy_services := [] |}
                   "http://localhost:8003" eq_refl _)).
  right. right. left.
Defined.

(** X3 (health round trips).  Marking an endpoint healthy and then
    unhealthy gives back the pool one started from when the endpoint was
    not healthy before.  The other way round is no round trip: an endpoint
    taken out and put back ends up last in the healthy list, the others
    keeping their order. *)
Theorem mark_round_trips (lb : LoadBalancer) (e : string) :
  (e ∉ healthy_services lb → mark_unhealthy e (mark_healthy e lb) = lb) ∧
  (NoDup (healthy_services lb) → e ∈ healthy_services lb → e ∈ services lb →
   healthy_services (mark_healthy e (mark_unhealthy e lb))
   = filter (λ x, x ≠ e) (healthy_services lb) ++ [e]).
Proof.
  split.
  - intros Hout. unfold mark_healthy. case_decide as Hc.
    + unfold mark_unhealthy. simpl.
      rewrite decide_True by (apply elem_of_app; right; by left).
      rewrite list_remove_snoc_notin by done. by destruct lb.
    + unfold mark_unhealthy. by rewrite decide_False.
  - intros Hnd Hin Hsvc.
    pose proof (mark_unhealthy_gone e lb Hnd) as Hgone.
    assert (services (mark_unhealthy e lb) = services lb) as Hs.
    { unfold mark_unhealthy. by case_decide. }
    unfold mark_healthy. rewrite decide_True by (by rewrite Hs). simpl.
    unfold mark_unhealthy. rewrite decide_True by done. simpl.
    by rewrite list_remove_NoDup.
Qed.

Lemma mark_round_trips_witness :
  mark_unhealthy "http://localhost:8002"
    (mark_healthy "http://localhost:8002"
       {| services := BACKEND_SERVICES; current_index := 4;
          healthy_services := ["http://localhost:8003"; "http://localhost:8001"] |})
  = {| services := BACKEND_SERVICES; current_index := 4;
       healthy_services := ["http://localhost:8003"; "http://localhost:8001"] |}.
Proof.
  apply (proj1 (mark_round_trips
                  {| services := BACKEND_SERVICES; current_index := 4;
                     healthy_services :=
                       ["http://localhost:8003"; "http://localhost:8001"] |}
                  "http://localhost:8002")).
  intros H. apply elem_of_cons in H as [H|H]; [discriminate|].
  apply elem_of_cons in H as [H|H]; [discriminate|].
  by apply elem_of_nil in H.
Defined.

(** X4 (the cursor only moves forward).  Over any run of pool operations
    the cursor never decreases, and it advances by at most the number of
    selections in the run: health transitions and snapshots leave it where
    it is, a failed selection too. *)
Theorem cursor_never_decreases (ops : list pool_op) (lb : LoadBalancer) :
  current_index lb ≤ current_index (run_ops ops lb) ≤
  current_index lb + Z.of_nat (count_next ops).
Proof.
  revert lb. induction ops as [|op ops IH]; intros lb; [simpl; lia|].
  rewrite count_next_cons.
  change (run_ops (op :: ops) lb) with (run_ops ops (run_op op lb)).
  pose proof (run_op_cursor op lb). pose proof (IH (run_op op lb)). lia.
Qed.

(** X5 (the status snapshot is consistent).  On a pool satisfying the
    invariant, [get_service_status] lists the configured endpoints in
    order, marks an entry healthy exactly when its endpoint is on the
    healthy list, and the number of entries it marks healthy is the
    healthy count it reports. *)
Theorem status_snapshot_consistent (lb : LoadBalancer) :
  pool_inv lb →
  total_services (get_service_status lb) = length (services lb) ∧
  url <$> service_entries (get_service_status lb) = services lb ∧
  (∀ en, en ∈ service_entries (get_service_status lb) →
         (status en = "healthy" ↔ url en ∈ healthy_services lb)) ∧
  length (filter (λ en, status en = "healthy")
            (service_entries (get_service_status lb)))
  = healthy_count (get_service_status lb).
Proof.
  intros (Hsub & Hnd & Hnds). split_and!.
  - done.
  - simpl. rewrite <-list_fmap_compose. by rewrite <-(list_fmap_id (services lb)) at 2.
  - intros en (x & -> & Hx)%list_elem_of_fmap. simpl.
    case_decide; [done|]. split; [discriminate | done].
  - simpl. rewrite status_entries_healthy. by apply filter_member_length.
Qed.

Lemma status_snapshot_consistent_witness :
  length (filter (λ en, status en = "healthy")
            (service_entries
               (get_service_status
                  (mark_unhealthy "http://localhost:8002"
                     (LoadBalancer_init BACKEND_SERVICES)))))
  = 2%nat.
Proof.
  refine (proj2 (proj2 (proj2 (status_snapshot_consistent
            (mark_unhealthy "http://localhost:8002"
               (LoadBalancer_init BACKEND_SERVICES)) _)))).
  split_and!.
  - apply sublist_subseteq, is_sublist_spec. reflexivity.
  - apply (bool_decide_unpack _). vm_compute. exact I.
  - apply (bool_decide_unpack _). vm_compute. exact I.
Defined.

(* ===================================================================== *)
(** ** The health-check rounds                                            *)
(* ===================================================================== *)

Section Probes.
Implicit Types (lb : LoadBalancer) (s : string) (svcs h : list string).
Variable probe : string → ProbeOutcome.

Lemma filter_ext_in {A} (P Q : A → Prop) `{!∀ x, Decision (P x), !∀ x, Decision (Q x)}
    (l : list A) :
  (∀ x, x ∈ l → (P x ↔ Q x)) → filter P l = filter Q l.
Proof.
  induction l as [|a l IH]; intros Hext; [done|].
  assert (filter P l = filter Q l) as Hl.
  { apply IH. intros x Hx. apply Hext. by right. }
  destruct (decide (P a)) as [Ha|Ha].
  - rewrite !filter_cons_True; [by rewrite Hl | | done].
    apply Hext; [by left | done].
  - rewrite !filter_cons_False; [done | | done].
    intros HQ. apply Ha. apply Hext; [by left | done].
Qed.

(** A probe either passes, and the service is marked healthy, or it does
    not, and the service is marked unhealthy. *)
Lemma probe_service_cases s lb :
  probe_service probe s lb =
  if decide (probe_ok probe s) then mark_healthy s lb else mark_unhealthy s lb.
Proof.
  destruct (decide (probe_ok probe s)) as [Hok|Hko]; unfold probe_service.
  - rewrite Hok. by rewrite decide_True.
  - unfold probe_ok in Hko.
    destruct (probe (s +:+ "/health")) as [code|]; [|done].
    rewrite decide_False; [done|]. by intros ->.
Qed.

Lemma probe_service_frame s lb :
  services (probe_service probe s lb) = services lb ∧
  current_index (probe_service probe s lb) = current_index lb.
Proof.
  rewrite probe_service_cases. unfold mark_healthy, mark_unhealthy.
  by repeat case_decide.
Qed.

Lemma probe_round_frame svcs : ∀ lb,
  services (probe_round svcs probe lb) = services lb ∧
  current_index (probe_round svcs probe lb) = current_index lb.
Proof.
  induction svcs as [|s svcs IH]; intros lb; [done|].
  change (probe_round (s :: svcs) probe lb)
    with (probe_round svcs probe (probe_service probe s lb)).
  destruct (IH (probe_service probe s lb)) as [-> ->].
  apply probe_service_frame.
Qed.

Lemma probe_service_pool_inv s lb :
  pool_inv lb → pool_inv (probe_service probe s lb).
Proof.
  intros Hinv. rewrite probe_service_cases. case_decide.
  - by apply (run_op_pool_inv (OpMarkHealthy s)).
  - by apply (run_op_pool_inv (OpMarkUnhealthy s)).
Qed.

Lemma probe_round_pool_inv svcs : ∀ lb,
  pool_inv lb → pool_inv (probe_round svcs probe lb).
Proof.
  induction svcs as [|s svcs IH]; intros lb Hinv; [done|].
  apply IH. by apply probe_service_pool_inv.
Qed.

(** The healthy list a round leaves: the endpoints that were healthy and
    were not probed or passed, in their old order, followed by the probed
    endpoints that passed and were not healthy, in probing order. *)
Lemma probe_round_healthy svcs : ∀ lb,
  NoDup svcs → NoDup (healthy_services lb) → svcs ⊆ services lb →
  healthy_services (probe_round svcs probe lb) =
  filter (λ x, x ∈ svcs → probe_ok probe x) (healthy_services lb)
  ++ filter (λ x, probe_ok probe x ∧ x ∉ healthy_services lb) svcs.
Proof.
  induction svcs as [|s rest IH]; intros lb Hnd Hndh Hsub.
  - unfold probe_round. cbn [foldl]. rewrite filter_nil, app_nil_r.
    clear. induction (healthy_services lb) as [|y l IHl]; [done|].
    rewrite filter_cons_True by (by intros ?%elem_of_nil). by rewrite <-IHl.
  - apply NoDup_cons in Hnd as [Hs Hrest].
    change (probe_round (s :: rest) probe lb)
      with (probe_round rest probe (probe_service probe s lb)).
    assert (s ∈ services lb) as Hsin by (apply Hsub; by left).
    assert (rest ⊆ services (probe_service probe s lb)) as Hsub'.
    { destruct (probe_service_frame s lb) as [-> _].
      intros x Hx. apply Hsub. by right. }
    rewrite probe_service_cases in *.
    destruct (decide (probe_ok probe s)) as [Hok|Hko];
      destruct (decide (s ∈ healthy_services lb)) as [Hin|Hout].
    + assert (mark_healthy s lb = lb) as Hm.
      { unfold mark_healthy. rewrite decide_False; [done|]. by intros [? _]. }
      rewrite Hm in *. rewrite IH by done.
      rewrite (filter_cons_False _ s) by (by intros [_ ?]).
      f_equal. apply list_filter_iff. intros x. rewrite elem_of_cons.
      naive_solver.
    + assert (healthy_services (mark_healthy s lb) = healthy_services lb ++ [s])
        as Hm.
      { unfold mark_healthy. by rewrite decide_True. }
      rewrite IH; [|done| |done].
      2:{ rewrite Hm. apply NoDup_app. split_and!; [done| |apply NoDup_singleton].
          by intros x Hx ->%list_elem_of_singleton. }
      rewrite Hm, filter_app, (filter_cons_True _ s) by done.
      rewrite (filter_cons_True _ s) by done.
      rewrite filter_nil, <-app_assoc. simpl. f_equal.
      * apply list_filter_iff. intros x. rewrite elem_of_cons. naive_solver.
      * f_equal. apply filter_ext_in. intros x Hx.
        rewrite elem_of_app, list_elem_of_singleton.
        assert (x ≠ s) by (by intros ->). naive_solver.
    + assert (healthy_services (mark_unhealthy s lb)
              = filter (λ x, x ≠ s) (healthy_services lb)) as Hm.
      { unfold mark_unhealthy. rewrite decide_True by done. simpl.
        by apply list_remove_NoDup. }
      rewrite IH; [|done| |done].
      2:{ rewrite Hm. by apply NoDup_filter. }
      rewrite Hm, (filter_cons_False _ s) by (by intros [? _]).
      rewrite list_filter_filter. f_equal.
      * apply list_filter_iff. intros x. rewrite elem_of_cons.
        destruct (decide (x = s)) as [->|Hne]; naive_solver.
      * apply filter_ext_in. intros x Hx. rewrite list_elem_of_filter.
        assert (x ≠ s) by (by intros ->). naive_solver.
    + assert (mark_unhealthy s lb = lb) as Hm.
      { unfold mark_unhealthy. by rewrite decide_False. }
      rewrite Hm in *. rewrite IH by done.
      rewrite (filter_cons_False _ s) by (by intros [? _]).
      f_equal. apply filter_ext_in. intros x Hx. rewrite elem_of_cons.
      assert (x ≠ s) by (by intros ->). naive_solver.
Qed.

(** After a round over the configured list, an endpoint is healthy
    exactly when it is configured and passed its probe. *)
Lemma probe_round_member lb s :
  pool_inv lb →
  s ∈ healthy_services (probe_round (services lb) probe lb) ↔
  s ∈ services lb ∧ probe_ok probe s.
Proof.
  intros (Hsub & Hnd & Hnds).
  rewrite probe_round_healthy by done.
  rewrite elem_of_app, !list_elem_of_filter. split.
  - intros [[Hok Hin] | [[Hok _] Hin]]; [|done].
    split; [by apply Hsub | apply Hok; by apply Hsub].
  - intros [Hin Hok].
    destruct (decide (s ∈ healthy_services lb)); [left | right]; done.
Qed.

(** A round changes nothing on a pool that already agrees with the
    probes. *)
Lemma probe_round_agreeing svcs : ∀ lb,
  (∀ s, s ∈ svcs → (s ∈ healthy_services lb ↔ probe_ok probe s)) →
  probe_round svcs probe lb = lb.
Proof.
  induction svcs as [|s svcs IH]; intros lb Hagree; [done|].
  change (probe_round (s :: svcs) probe lb)
    with (probe_round svcs probe (probe_service probe s lb)).
  assert (probe_service probe s lb = lb) as ->.
  { rewrite probe_service_cases.
    pose proof (Hagree s (list_elem_of_here _ _)) as Hs.
    case_decide.
    - unfold mark_healthy. rewrite decide_False; [done|]. intros [Hout _].
      apply Hout. by apply Hs.
    - unfold mark_unhealthy. rewrite decide_False; [done|]. by rewrite Hs. }
  apply IH. intros x Hx. apply Hagree. by right.
Qed.

End Probes.

Lemma BACKEND_SERVICES_NoDup : NoDup BACKEND_SERVICES.
Proof. apply (bool_decide_unpack _). vm_compute. exact I. Qed.

Lemma gateway_pool_inv : pool_inv (LoadBalancer_init BACKEND_SERVICES).
Proof. apply pool_inv_init, BACKEND_SERVICES_NoDup. Qed.

Lemma health_check_task_inv (rounds : list (string → ProbeOutcome)) :
  ∀ lb, pool_inv lb → services lb = BACKEND_SERVICES →
  pool_inv (health_check_task rounds lb) ∧
  services (health_check_task rounds lb) = BACKEND_SERVICES ∧
  current_index (health_check_task rounds lb) = current_index lb.
Proof.
  induction rounds as [|probe rounds IH]; intros lb Hinv Hsvc; [done|].
  change (health_check_task (probe :: rounds) lb)
    with (health_check_task rounds (health_check_round probe lb)).
  destruct (probe_round_frame probe BACKEND_SERVICES lb) as [Hs Hc].
  destruct (IH (health_check_round probe lb)) as (H1 & H2 & H3).
  - by apply probe_round_pool_inv.
  - unfold health_check_round. by rewrite Hs.
  - split_and!; [done | done |]. rewrite H3. apply Hc.
Qed.

(** X6 (what a health-check round leaves).  On the gateway's pool, a
    round keeps the healthy endpoints whose probe answered 200, in the
    order they had, and appends the endpoints that were not healthy and
    whose probe answered 200, in configured order; every other endpoint is
    out.  The configured list and the cursor are untouched and the pool
    invariant holds afterwards. *)
Theorem health_check_round_result (probe : string → ProbeOutcome)
    (lb : LoadBalancer) :
  pool_inv lb → services lb = BACKEND_SERVICES →
  healthy_services (health_check_round probe lb)
  = filter (probe_ok probe) (healthy_services lb)
    ++ filter (λ s, probe_ok probe s ∧ s ∉ healthy_services lb) BACKEND_SERVICES ∧
  (∀ s, s ∈ healthy_services (health_check_round probe lb) ↔
        s ∈ BACKEND_SERVICES ∧ probe_ok probe s) ∧
  services (health_check_round probe lb) = BACKEND_SERVICES ∧
  current_index (health_check_round probe lb) = current_index lb ∧
  pool_inv (health_check_round probe lb).
Proof.
  intros Hinv Hsvc. pose proof Hinv as (Hsub & Hnd & Hnds).
  unfold health_check_round. rewrite <-Hsvc. split_and!.
  - rewrite probe_round_healthy by done. f_equal.
    apply filter_ext_in. intros x Hx. split; [|done].
    intros Hok. apply Hok. by apply Hsub.
  - intros s. by apply probe_round_member.
  - apply probe_round_frame.
  - apply probe_round_frame.
  - by apply probe_round_pool_inv.
Qed.

Lemma health_check_round_result_witness :
  healthy_services
    (health_check_round
       (λ u, if decide (u = "http://localhost:8003/health")
             then ProbeRaised else ProbeReplied 200)
       {| services := BACKEND_SERVICES; current_index := 2;
          healthy_services := ["http://localhost:8003"; "http://localhost:8002"] |})
  = ["http://localhost:8002"; "http://localhost:8001"].
Proof.
  refine (eq_trans (proj1 (health_check_round_result
            (λ u, if decide (u = "http://localhost:8003/health")
                  then ProbeRaised else ProbeReplied 200)
            {| services := BACKEND_SERVICES; current_index := 2;
               healthy_services :=
                 ["http://localhost:8003"; "http://localhost:8002"] |} _ _)) _).
  - split_and!.
    + intros x Hx. simpl in *. apply elem_of_cons in Hx as [->|Hx].
      * right. right. left.
      * apply elem_of_cons in Hx as [->|Hx]; [right; left|].
        by apply elem_of_nil in Hx.
    + apply (bool_decide_unpack _). vm_compute. exact I.
    + apply (bool_decide_unpack _). vm_compute. exact I.
  - reflexivity.
  - vm_compute. reflexivity.
Defined.

(** X7 (health follows the latest round).  After any number of
    health-check rounds, whatever the earlier ones found, an endpoint is
    healthy exactly when it is configured and its probe in the last round
    answered 200; the rounds never move the cursor. *)
Theorem health_check_task_last_round
    (rounds : list (string → ProbeOutcome)) (probe : string → ProbeOutcome)
    (lb : LoadBalancer) :
  pool_inv lb → services lb = BACKEND_SERVICES →
  (∀ s, s ∈ healthy_services (health_check_task (rounds ++ [probe]) lb) ↔
        s ∈ BACKEND_SERVICES ∧ probe_ok probe s) ∧
  current_index (health_check_task (rounds ++ [probe]) lb) = current_index lb.
Proof.
  intros Hinv Hsvc.
  destruct (health_check_task_inv rounds lb Hinv Hsvc) as (Hinv' & Hsvc' & Hc).
  unfold health_check_task. rewrite foldl_app. cbn [foldl].
  fold (health_check_task rounds lb). split.
  - intros s. unfold health_check_round. rewrite <-Hsvc'.
    by apply probe_round_member.
  - unfold health_check_round.
    destruct (probe_round_frame probe BACKEND_SERVICES
                (health_check_task rounds lb)) as [_ ->].
    exact Hc.
Qed.

Lemma health_check_task_last_round_witness :
  "http://localhost:8002" ∈
    healthy_services
      (health_check_task
         [(λ _, ProbeRaised); (λ _, ProbeReplied 503); (λ _, ProbeReplied 200)]
         (LoadBalancer_init BACKEND_SERVICES)).
Proof.
  apply (proj1 (health_check_task_last_round
                  [(λ _, ProbeRaised); (λ _, ProbeReplied 503)]
                  (λ _, ProbeReplied 200)
                  (LoadBalancer_init BACKEND_SERVICES)
                  gateway_pool_inv eq_refl)).
  split; [right; left | reflexivity].
Defined.

(** X8 (a repeated round changes nothing).  Running a health-check round
    again with the same probe answers leaves the pool exactly as the
    first run left it: same healthy list in the same order, same cursor. *)
Theorem health_check_round_stable (probe : string → ProbeOutcome)
    (lb : LoadBalancer) :
  pool_inv lb → services lb = BACKEND_SERVICES →
  health_check_round probe (health_check_round probe lb)
  = health_check_round probe lb.
Proof.
  intros Hinv Hsvc. unfold health_check_round at 1.
  apply probe_round_agreeing. intros s Hs.
  unfold health_check_round. rewrite <-Hsvc in *.
  rewrite probe_round_member by done. naive_solver.
Qed.

Lemma health_check_round_stable_witness :
  health_check_round (λ _, ProbeReplied 500)
    (health_check_round (λ _, ProbeReplied 500) (LoadBalancer_init BACKEND_SERVICES))
  = health_check_round (λ _, ProbeReplied 500) (LoadBalancer_init BACKEND_SERVICES).
Proof.
  apply (health_check_round_stable (λ _, ProbeReplied 500)
           (LoadBalancer_init BACKEND_SERVICES)
           gateway_pool_inv eq_refl).
Defined.

(* ===================================================================== *)
(** ** More on the limiter: the window guarantee, isolation, queries      *)
(* ===================================================================== *)

Section LimiterMore.
Implicit Types (rl : RateLimiter) (c : string) (t now : instant)
  (l : list instant).

Lemma in_window_app w t l1 l2 :
  in_window w t (l1 ++ l2) = in_window w t l1 ++ in_window w t l2.
Proof. unfold in_window. apply filter_app. Qed.

Lemma in_window_length w t l : (length (in_window w t l) ≤ length l)%nat.
Proof. unfold in_window. apply length_filter. Qed.

(** Pruning at a later instant absorbs pruning at an earlier one. *)
Lemma in_window_later w t t' l :
  t' ≤ t → in_window w t (in_window w t' l) = in_window w t l.
Proof.
  intros Hle. unfold in_window. apply list_filter_filter_l. intros x. lia.
Qed.

Lemma stored_other c c' rl (v : list instant) :
  c ≠ c' → stored (set_requests (<[c := v]> (requests rl)) rl) c' = stored rl c'.
Proof. intros Hne. unfold stored. simpl. by rewrite lookup_insert_ne. Qed.

(** What [is_allowed] leaves stored for its client, and its frame. *)
Lemma is_allowed_stored c t rl :
  stored (is_allowed c t rl).2 c =
    in_window (window_seconds rl) t (stored rl c)
    ++ (if (is_allowed c t rl).1 then [t] else []) ∧
  max_requests (is_allowed c t rl).2 = max_requests rl ∧
  window_seconds (is_allowed c t rl).2 = window_seconds rl.
Proof.
  rewrite is_allowed_eq. cbn zeta. case_decide; cbn [fst snd].
  - by rewrite stored_set_insert, app_nil_r.
  - by rewrite stored_set_insert.
Qed.

Lemma is_allowed_length c t rl :
  Z.of_nat (length (stored rl c)) ≤ max_requests rl →
  Z.of_nat (length (stored (is_allowed c t rl).2 c)) ≤ max_requests rl.
Proof.
  intros Hlen. rewrite is_allowed_eq. cbn zeta.
  pose proof (in_window_length (window_seconds rl) t (stored rl c)).
  case_decide; cbn [snd]; rewrite stored_set_insert; [lia|].
  rewrite length_app. simpl. lia.
Qed.

Lemma run_limiter_op_config (op : limiter_op) rl :
  max_requests (run_limiter_op op rl) = max_requests rl ∧
  window_seconds (run_limiter_op op rl) = window_seconds rl.
Proof.
  destruct op as [c t|c t|c t]; simpl.
  - by destruct (is_allowed_stored c t rl) as (_ & -> & ->).
  - by rewrite get_remaining_requests_eq.
  - by rewrite get_reset_time_eq.
Qed.

Lemma get_reset_time_stored c c' t rl :
  stored (get_reset_time c t rl).2 c' = stored rl c'.
Proof.
  rewrite get_reset_time_eq. cbn [snd]. unfold stored, dd_getitem. simpl.
  destruct (requests rl !! c) as [v|] eqn:Hc; simpl; [done|].
  destruct (decide (c = c')) as [<-|Hne].
  - by rewrite lookup_insert_eq, Hc.
  - by rewrite lookup_insert_ne.
Qed.

(** A call for one client leaves every other client's list alone. *)
Lemma run_limiter_op_other (op : limiter_op) c' rl :
  op_client op ≠ c' → stored (run_limiter_op op rl) c' = stored rl c'.
Proof.
  intros Hne. destruct op as [c t|c t|c t]; simpl in *.
  - rewrite is_allowed_eq. cbn zeta. case_decide; by apply stored_other.
  - rewrite get_remaining_requests_eq. by apply stored_other.
  - apply get_reset_time_stored.
Qed.

Lemma run_limiter_op_length (op : limiter_op) c' rl :
  Z.of_nat (length (stored rl c')) ≤ max_requests rl →
  Z.of_nat (length (stored (run_limiter_op op rl) c')) ≤ max_requests rl.
Proof.
  intros Hlen. destruct (decide (op_client op = c')) as [<-|Hne].
  - destruct op as [c t|c t|c t]; simpl in *.
    + by apply is_allowed_length.
    + rewrite get_remaining_requests_eq. cbn [snd]. rewrite stored_set_insert.
      pose proof (in_window_length (window_seconds rl) t (stored rl c)). lia.
    + by rewrite get_reset_time_stored.
  - by rewrite run_limiter_op_other.
Qed.

(** The answers of the three methods depend on the limiter only through
    its configuration and the list stored for the client. *)
Lemma answers_by_stored c t rl rl' :
  max_requests rl' = max_requests rl → window_seconds rl' = window_seconds rl →
  stored rl' c = stored rl c →
  (is_allowed c t rl').1 = (is_allowed c t rl).1 ∧
  (get_remaining_requests c t rl').1 = (get_remaining_requests c t rl).1 ∧
  (get_reset_time c t rl').1 = (get_reset_time c t rl).1.
Proof.
  intros Hm Hw Hs.
  rewrite !is_allowed_eq, !get_remaining_requests_eq, !get_reset_time_eq.
  cbn zeta. rewrite Hm, Hw, Hs. split_and!; [|done..].
  by case_decide.
Qed.

(** Under a clock that does not run backwards, the list stored after a
    run of [is_allowed] calls is what the window at the last instant keeps
    of the list stored before followed by the accepted instants. *)
Lemma stored_after_run c (ts : list instant) : ∀ rl tl,
  0 < window_seconds rl →
  StronglySorted Z.le ts →
  last ts = Some tl →
  stored (is_allowed_seq c ts rl).2 c
  = in_window (window_seconds rl) tl (stored rl c ++ accepted c ts rl).
Proof.
  induction ts as [|t ts IH]; intros rl tl Hw Hsorted Hlast; [done|].
  apply StronglySorted_inv in Hsorted as [Hsorted Hall].
  destruct (is_allowed_stored c t rl) as (Hst & Hmax & Hwin).
  cbn [is_allowed_seq accepted].
  destruct (is_allowed c t rl) as [b rl1] eqn:Hstep. cbn [fst snd] in *.
  destruct ts as [|t2 ts'].
  - injection Hlast as <-. cbn [is_allowed_seq snd]. rewrite Hst.
    rewrite in_window_app. f_equal.
    destruct b; [|done]. simpl. unfold in_window.
    by rewrite filter_cons_True by lia.
  - rewrite last_cons_cons in Hlast.
    assert (t ≤ tl) as Hle.
    { rewrite Forall_forall in Hall. apply Hall.
      by apply last_Some_elem_of. }
    specialize (IH rl1 tl). rewrite Hwin in IH.
    destruct (is_allowed_seq c (t2 :: ts') rl1) as [bs rl2] eqn:Hrest.
    cbn [snd] in *. rewrite IH by done. rewrite Hst.
    rewrite !in_window_app, in_window_later by done.
    rewrite <-app_assoc. f_equal. rewrite <-in_window_app.
    by destruct b.
Qed.

Lemma length_after_run c (ts : list instant) : ∀ rl,
  Z.of_nat (length (stored rl c)) ≤ max_requests rl →
  Z.of_nat (length (stored (is_allowed_seq c ts rl).2 c)) ≤ max_requests rl.
Proof.
  induction ts as [|t ts IH]; intros rl Hlen; [done|].
  cbn [is_allowed_seq].
  pose proof (is_allowed_length c t rl Hlen) as Hlen1.
  destruct (is_allowed_stored c t rl) as (_ & Hmax & _).
  destruct (is_allowed c t rl) as [b rl1]. cbn [snd] in *.
  specialize (IH rl1). rewrite Hmax in IH.
  destruct (is_allowed_seq c ts rl1) as [bs rl2]. cbn [snd] in *. by apply IH.
Qed.

(** Python's [min]: a member of the list, below every member. *)
Lemma list_min_spec l m :
  list_min l = Some m → m ∈ l ∧ ∀ x, x ∈ l → m ≤ x.
Proof.
  destruct l as [|a l]; [done|]. simpl. intros [= <-].
  revert a. induction l as [|b l IH]; intros a; simpl.
  - split; [by left|]. by intros x ->%list_elem_of_singleton.
  - destruct (IH (a `min` b)) as [Hin Hmin]. split.
    + apply elem_of_cons in Hin as [Heq|Hin]; [|by do 2 right].
      rewrite Heq. destruct (Z.min_spec a b) as [[_ ->]|[_ ->]];
        [by left | right; by left].
    + intros x Hx.
      assert (foldl Z.min (a `min` b) l ≤ a `min` b) as Hab
        by (apply Hmin; by left).
      apply elem_of_cons in Hx as [->|Hx]; [lia|].
      apply elem_of_cons in Hx as [->|Hx]; [lia|].
      apply Hmin. by right.
Qed.

End LimiterMore.

(** X9 (the window guarantee).  Let one client call [is_allowed] at
    instants that never go backwards, starting with nothing stored for it.
    Then at the instant of the latest call, the accepted instants still
    inside the window number at most [max_requests], and they are exactly
    what the limiter has stored for the client. *)
Theorem window_never_exceeds_limit (c : string) (ts : list instant)
    (tl : instant) (rl : RateLimiter) :
  0 < window_seconds rl → 0 ≤ max_requests rl →
  Sorted Z.le ts → last ts = Some tl →
  stored rl c = [] →
  stored (is_allowed_seq c ts rl).2 c
  = in_window (window_seconds rl) tl (accepted c ts rl) ∧
  Z.of_nat (length (in_window (window_seconds rl) tl (accepted c ts rl)))
  ≤ max_requests rl.
Proof.
  intros Hw Hmax Hsorted Hlast Hnone.
  assert (stored (is_allowed_seq c ts rl).2 c
          = in_window (window_seconds rl) tl (accepted c ts rl)) as Hst.
  { rewrite (stored_after_run c ts rl tl); [by rewrite Hnone|done| |done].
    apply Sorted_StronglySorted; [|done]. intros x y z. lia. }
  split; [done|]. rewrite <-Hst. apply length_after_run.
  rewrite Hnone. simpl. lia.
Qed.

Lemma window_never_exceeds_limit_witness :
  Z.of_nat (length (in_window 60 70
                      (accepted "127.0.0.1" [0; 10; 10; 20; 30; 40; 50; 61; 70]
                         rate_limiter0)))
  ≤ 5.
Proof.
  refine (proj2 (window_never_exceeds_limit "127.0.0.1"
                   [0; 10; 10; 20; 30; 40; 50; 61; 70] 70 rate_limiter0
                   _ _ _ _ _)).
  - simpl. lia.
  - simpl. lia.
  - repeat constructor; simpl; lia.
  - reflexivity.
  - reflexivity.
Defined.

(** X10 (bounded list per client).  Starting from a new limiter with a
    non-negative limit, after any sequence of [is_allowed],
    [get_remaining_requests] and [get_reset_time] calls, by any clients at
    any instants, no client has more than [max_requests] timestamps
    stored, and the configuration is the one the limiter was built with. *)
Theorem stored_length_bounded (max_req window : Z) (ops : list limiter_op)
    (c : string) :
  0 ≤ max_req →
  Z.of_nat (length (stored (run_limiter_ops ops (RateLimiter_init max_req window)) c))
  ≤ max_req ∧
  max_requests (run_limiter_ops ops (RateLimiter_init max_req window)) = max_req ∧
  window_seconds (run_limiter_ops ops (RateLimiter_init max_req window)) = window.
Proof.
  intros Hmax.
  assert (∀ rl,
    Z.of_nat (length (stored rl c)) ≤ max_requests rl →
    Z.of_nat (length (stored (run_limiter_ops ops rl) c)) ≤ max_requests rl ∧
    max_requests (run_limiter_ops ops rl) = max_requests rl ∧
    window_seconds (run_limiter_ops ops rl) = window_seconds rl) as Hgen.
  { induction ops as [|op ops IH]; intros rl Hlen; [done|].
    change (run_limiter_ops (op :: ops) rl)
      with (run_limiter_ops ops (run_limiter_op op rl)).
    destruct (run_limiter_op_config op rl) as [Hm Hw].
    destruct (IH (run_limiter_op op rl)) as (H1 & H2 & H3).
    - rewrite Hm. by apply run_limiter_op_length.
    - rewrite <-Hm, <-Hw. done. }
  apply (Hgen (RateLimiter_init max_req window)).
  unfold stored. simpl. rewrite lookup_empty. simpl. lia.
Qed.

Lemma stored_length_bounded_witness :
  Z.of_nat (length (stored
     (run_limiter_ops
        [CallAllowed "a" 3; CallAllowed "a" 1; CallReset "b" 2;
         CallAllowed "a" 2; CallRemaining "a" 0; CallAllowed "a" 5]
        (RateLimiter_init 2 60)) "a"))
  ≤ 2.
Proof.
  refine (proj1 (stored_length_bounded 2 60
     [CallAllowed "a" 3; CallAllowed "a" 1; CallReset "b" 2;
      CallAllowed "a" 2; CallRemaining "a" 0; CallAllowed "a" 5] "a" _)).
  lia.
Defined.

(** X11 (clients do not interfere).  Calls made for other clients, of any
    of the three methods and at any instants, leave a client's stored
    list as it was, and so leave unchanged what [is_allowed],
    [get_remaining_requests] and [get_reset_time] answer for it. *)
Theorem clients_do_not_interfere (ops : list limiter_op) (c : string)
    (t : instant) (rl : RateLimiter) :
  Forall (λ op, op_client op ≠ c) ops →
  stored (run_limiter_ops ops rl) c = stored rl c ∧
  (is_allowed c t (run_limiter_ops ops rl)).1 = (is_allowed c t rl).1 ∧
  (get_remaining_requests c t (run_limiter_ops ops rl)).1
  = (get_remaining_requests c t rl).1 ∧
  (get_reset_time c t (run_limiter_ops ops rl)).1 = (get_reset_time c t rl).1.
Proof.
  intros Hothers.
  assert (stored (run_limiter_ops ops rl) c = stored rl c ∧
          max_requests (run_limiter_ops ops rl) = max_requests rl ∧
          window_seconds (run_limiter_ops ops rl) = window_seconds rl)
    as (Hs & Hm & Hw).
  { revert rl. induction Hothers as [|op ops Hop _ IH]; intros rl; [done|].
    change (run_limiter_ops (op :: ops) rl)
      with (run_limiter_ops ops (run_limiter_op op rl)).
    destruct (IH (run_limiter_op op rl)) as (-> & -> & ->).
    destruct (run_limiter_op_config op rl) as [-> ->].
    by rewrite run_limiter_op_other. }
  split; [done|]. by apply answers_by_stored.
Qed.

Lemma clients_do_not_interfere_witness :
  (is_allowed "10.0.0.1" 7
     (run_limiter_ops
        [CallAllowed "10.0.0.2" 1; CallAllowed "10.0.0.2" 2; CallRemaining "10.0.0.3" 4]
        rate_limiter0)).1
  = (is_allowed "10.0.0.1" 7 rate_limiter0).1.
Proof.
  refine (proj1 (proj2 (clients_do_not_interfere
     [CallAllowed "10.0.0.2" 1; CallAllowed "10.0.0.2" 2; CallRemaining "10.0.0.3" 4]
     "10.0.0.1" 7 rate_limiter0 _))).
  repeat constructor; discriminate.
Defined.

Lemma queries_use_no_budget_reset (c : string) (t t' : instant) (rl : RateLimiter) :
  is_allowed c t (get_reset_time c t' rl).2 = is_allowed c t rl.
Proof.
  rewrite !is_allowed_eq. cbn zeta.
  rewrite get_reset_time_stored.
  assert (window_seconds (get_reset_time c t' rl).2 = window_seconds rl
          ∧ max_requests (get_reset_time c t' rl).2 = max_requests rl) as [-> ->]
    by (by rewrite get_reset_time_eq).
  assert (∀ v : list instant,
            set_requests (<[c := v]> (requests (get_reset_time c t' rl).2))
              (get_reset_time c t' rl).2
            = set_requests (<[c := v]> (requests rl)) rl) as Hset.
  { intros v. rewrite get_reset_time_eq. cbn [snd]. unfold set_requests. simpl.
    f_equal. unfold dd_getitem. destruct (requests rl !! c); simpl; [done|].
    by rewrite insert_insert_eq. }
  by rewrite !Hset.
Qed.

Lemma queries_use_no_budget_remaining (c : string) (t t' : instant)
    (rl : RateLimiter) :
  t' ≤ t →
  is_allowed c t (get_remaining_requests c t' rl).2 = is_allowed c t rl.
Proof.
  intros Hle. rewrite get_remaining_requests_eq. cbn zeta. cbn [snd].
  rewrite !is_allowed_eq. cbn zeta. rewrite stored_set_insert. simpl.
  rewrite in_window_later by done.
  unfold set_requests. simpl. by rewrite !insert_insert_eq.
Qed.

(** X12 (queries use up no budget).  A [get_reset_time] call, at any
    instant, and a [get_remaining_requests] call, at an instant not later
    than the next [is_allowed] call, change neither the answer of that
    [is_allowed] call nor the limiter it leaves behind. *)
Theorem queries_use_no_budget (c : string) (t t' : instant) (rl : RateLimiter) :
  is_allowed c t (get_reset_time c t' rl).2 = is_allowed c t rl ∧
  (t' ≤ t →
   is_allowed c t (get_remaining_requests c t' rl).2 = is_allowed c t rl).
Proof.
  split; [apply queries_use_no_budget_reset | apply queries_use_no_budget_remaining].
Qed.

Lemma queries_use_no_budget_witness :
  is_allowed "127.0.0.1" 30
    (get_remaining_requests "127.0.0.1" 20
       (is_allowed_seq "127.0.0.1" [0; 5] rate_limiter0).2).2
  = is_allowed "127.0.0.1" 30 (is_allowed_seq "127.0.0.1" [0; 5] rate_limiter0).2.
Proof.
  apply (proj2 (queries_use_no_budget "127.0.0.1" 30 20
                  (is_allowed_seq "127.0.0.1" [0; 5] rate_limiter0).2)).
  lia.
Defined.

(** X13 (remaining quota and admission agree).  The remaining quota is
    never negative, and never above a non-negative limit; [is_allowed]
    rejects at an instant exactly when the remaining quota at that instant
    is zero; and with a positive window, an accepted call lowers the
    remaining quota seen at that instant by exactly one. *)
Theorem remaining_matches_admission (c : string) (t : instant) (rl : RateLimiter) :
  0 ≤ (get_remaining_requests c t rl).1 ∧
  ((is_allowed c t rl).1 = false ↔ (get_remaining_requests c t rl).1 = 0) ∧
  (0 ≤ max_requests rl → (get_remaining_requests c t rl).1 ≤ max_requests rl) ∧
  (0 < window_seconds rl → (is_allowed c t rl).1 = true →
   (get_remaining_requests c t (is_allowed c t rl).2).1
   = (get_remaining_requests c t rl).1 - 1).
Proof.
  rewrite get_remaining_requests_eq. cbn zeta. cbn [fst].
  split_and!.
  - lia.
  - rewrite is_allowed_eq. cbn zeta. case_decide; cbn [fst]; split; try done; lia.
  - lia.
  - intros Hw Hacc.
    destruct (is_allowed_stored c t rl) as (Hst & Hm & Hwin).
    rewrite get_remaining_requests_eq. cbn zeta. cbn [fst].
    rewrite Hm, Hwin, Hst, Hacc.
    rewrite in_window_app, in_window_idemp, length_app.
    unfold in_window at 2. rewrite filter_cons_True by lia. simpl.
    rewrite is_allowed_eq in Hacc. cbn zeta in Hacc.
    case_decide; [done|]. lia.
Qed.

Lemma remaining_matches_admission_witness :
  (get_remaining_requests "127.0.0.1" 9 (is_allowed "127.0.0.1" 9 rate_limiter0).2).1
  = (get_remaining_requests "127.0.0.1" 9 rate_limiter0).1 - 1.
Proof.
  apply (proj2 (proj2 (proj2
           (remaining_matches_admission "127.0.0.1" 9 rate_limiter0)))).
  - simpl. lia.
  - reflexivity.
Defined.

(** X14 (the reset time runs down).  [get_reset_time] is never negative
    and is zero for a client with nothing stored; with no new requests it
    never grows as time advances, so once zero it stays zero; and it is
    zero from the moment the oldest stored timestamp is a full window old.
    The call itself leaves every client's stored list unchanged. *)
Theorem reset_time_runs_down (c : string) (t t' : instant) (rl : RateLimiter) :
  0 ≤ (get_reset_time c t rl).1 ∧
  (stored rl c = [] → (get_reset_time c t rl).1 = 0) ∧
  (t ≤ t' →
   (get_reset_time c t' (get_reset_time c t rl).2).1 ≤ (get_reset_time c t rl).1) ∧
  (t ≤ t' → (get_reset_time c t rl).1 = 0 →
   (get_reset_time c t' (get_reset_time c t rl).2).1 = 0) ∧
  (∀ oldest, list_min (stored rl c) = Some oldest →
   oldest + window_seconds rl ≤ t → (get_reset_time c t rl).1 = 0) ∧
  (∀ c', stored (get_reset_time c t rl).2 c' = stored rl c').
Proof.
  assert ((get_reset_time c t' (get_reset_time c t rl).2).1
          = match list_min (stored rl c) with
            | None => 0
            | Some oldest => 0 `max` (oldest + window_seconds rl - t')
            end) as Hnext.
  { rewrite (get_reset_time_eq c t'). cbn [fst].
    rewrite get_reset_time_stored. by rewrite get_reset_time_eq. }
  rewrite Hnext. rewrite get_reset_time_eq. cbn [fst].
  split_and!.
  - destruct (list_min (stored rl c)); lia.
  - by intros ->.
  - intros Hle. destruct (list_min (stored rl c)); lia.
  - intros Hle. destruct (list_min (stored rl c)); lia.
  - intros oldest ->. lia.
  - intros c'. pose proof (get_reset_time_stored c c' t rl) as Hs.
    by rewrite get_reset_time_eq in Hs.
Qed.

Lemma reset_time_runs_down_witness :
  (get_reset_time "127.0.0.1" 45
     (get_reset_time "127.0.0.1" 20
        (is_allowed_seq "127.0.0.1" [0; 5] rate_limiter0).2).2).1
  ≤ (get_reset_time "127.0.0.1" 20
       (is_allowed_seq "127.0.0.1" [0; 5] rate_limiter0).2).1.
Proof.
  apply (proj1 (proj2 (proj2
           (reset_time_runs_down "127.0.0.1" 20 45
              (is_allowed_seq "127.0.0.1" [0; 5] rate_limiter0).2)))).
  lia.
Defined.

(* ===================================================================== *)
(** ** More on the request path                                           *)
(* ===================================================================== *)

Section Forwarding.
Implicit Types (request : Request) (env : Env) (g : Gateway) (path : string).



Lemma api_not_exempt path : "/api/" +:+ path ∉ exempt_paths.
Proof.
  unfold exempt_paths. intros H.
  apply elem_of_cons in H as [H|H]; [discriminate|].
  apply elem_of_cons in H as [H|H]; [discriminate|].
  apply elem_of_cons in H as [H|H]; [discriminate|].
  by apply elem_of_nil in H.
Qed.




End Forwarding.

(** X15 (a rejected request touches nothing).  When [is_allowed] rejects
    a request to a path that is not exempt, the middleware answers 429
    without running the handler: no backend request is sent, the pool is
    exactly as before, no timestamp is recorded for the client (its list
    is only pruned), and no other client's list changes. *)
Theorem rejected_request_touches_nothing (request : Request) (env : Env)
    (call_next : Gateway → Outcome) (g : Gateway) :
  req_path request ∉ exempt_paths →
  (is_allowed (client_host request) (t_allowed (clock env)) (rate_limiter g)).1
  = false →
  status_of (rate_limit_middleware request env call_next g) = Some 429 ∧
  sent (rate_limit_middleware request env call_next g) = [] ∧
  load_balancer (after (rate_limit_middleware request env call_next g))
  = load_balancer g ∧
  stored (rate_limiter (after (rate_limit_middleware request env call_next g)))
    (client_host request)
  = in_window (window_seconds (rate_limiter g)) (t_remaining (clock env))
      (in_window (window_seconds (rate_limiter g)) (t_allowed (clock env))
         (stored (rate_limiter g) (client_host request))) ∧
  (∀ c', c' ≠ client_host request →
     stored (rate_limiter (after (rate_limit_middleware request env call_next g))) c'
     = stored (rate_limiter g) c').
Proof.
  intros Hpath Hrej. unfold rate_limit_middleware. cbn zeta.
  rewrite decide_False by done.
  destruct (is_allowed_stored (client_host request) (t_allowed (clock env))
              (rate_limiter g)) as (Hst & Hm & Hw).
  pose proof (λ c', run_limiter_op_other
                (CallAllowed (client_host request) (t_allowed (clock env)))
                c' (rate_limiter g)) as Hother1.
  simpl in Hother1.
  destruct (is_allowed _ _ (rate_limiter g)) as [b rl1]. cbn [fst snd] in *.
  subst b. cbn [negb].
  pose proof (get_remaining_requests_eq (client_host request)
                (t_remaining (clock env)) rl1) as Hrem.
  destruct (get_remaining_requests _ _ rl1) as [rem rl2].
  pose proof (λ c', get_reset_time_stored (client_host request) c'
                      (t_reset (clock env)) rl2) as Hreset.
  destruct (get_reset_time _ _ rl2) as [rst rl3]. cbn [snd] in *.
  cbn zeta in Hrem. injection Hrem as _ Hrl2. subst rl2.
  split_and!; try done.
  - cbn. rewrite Hreset, stored_set_insert, Hw, Hst. by rewrite app_nil_r.
  - intros c' Hne. cbn. rewrite Hreset.
    assert (client_host request ≠ c') as Hne' by (by intros <-).
    rewrite stored_other by done. by apply Hother1.
Qed.

Lemma rejected_request_touches_nothing_witness :
  sent (rate_limit_middleware (get_request "/api/data") (unreachable_env 0)
          (proxy_request "data" (get_request "/api/data") (unreachable_env 0))
          (with_limiter
             (is_allowed_seq "127.0.0.1" [0; 0; 0; 0; 0] rate_limiter0).2 gateway0))
  = [].
Proof.
  refine (proj1 (proj2 (rejected_request_touches_nothing
            (get_request "/api/data") (unreachable_env 0)
            (proxy_request "data" (get_request "/api/data") (unreachable_env 0))
            (with_limiter
               (is_allowed_seq "127.0.0.1" [0; 0; 0; 0; 0] rate_limiter0).2 gateway0)
            _ _))).
  - apply (api_not_exempt "data").
  - vm_compute. reflexivity.
Defined.

Section AcceptedPath.
Implicit Types (request : Request) (env : Env) (g : Gateway).

(** The middleware on an accepted request whose handler returned a
    response. *)
Lemma middleware_admitted request env (call_next : Gateway → Outcome) g
    (rl1 : RateLimiter) (response : Response) :
  req_path request ∉ exempt_paths →
  is_allowed (client_host request) (t_allowed (clock env)) (rate_limiter g)
  = (true, rl1) →
  returned (call_next (with_limiter rl1 g)) = Ok response →
  rate_limit_middleware request env call_next g =
  let o := call_next (with_limiter rl1 g) in
  let rem := get_remaining_requests (client_host request) (t_remaining (clock env))
               (rate_limiter (after o)) in
  let rst := get_reset_time (client_host request) (t_reset (clock env)) rem.2 in
  {| returned :=
       Ok {| resp_status := resp_status response;
             resp_content := resp_content response;
             resp_headers :=
               <["X-RateLimit-Reset" := str (int (t_header (clock env) + rst.1))]>
               (<["X-RateLimit-Remaining" := str rem.1]>
                (<["X-RateLimit-Limit" := str (max_requests rst.2)]>
                 (resp_headers response))) |};
     after := with_limiter rst.2 (after o);
     sent := sent o |}.
Proof.
  intros Hpath Hacc Hret. unfold rate_limit_middleware. cbn zeta.
  rewrite decide_False by done. rewrite Hacc. cbn [negb]. rewrite Hret.
  destruct (get_remaining_requests _ _ _) as [rem rl2]. cbn [fst snd].
  by destruct (get_reset_time _ _ rl2) as [rst rl3].
Qed.


End AcceptedPath.







(** X19 (what the middleware adds to an accepted response).  On an
    accepted request the middleware passes the handler's status, body,
    backend requests and pool through; it sets [X-RateLimit-Limit] to the
    limit and [X-RateLimit-Remaining] to the remaining quota the limiter
    reports after the handler ran, sets [X-RateLimit-Reset] as well, and
    leaves every other header of the response as the handler set it. *)
Theorem admitted_response_headers (request : Request) (env : Env)
    (call_next : Gateway → Outcome) (g : Gateway) (rl1 : RateLimiter)
    (response : Response) :
  req_path request ∉ exempt_paths →
  is_allowed (client_host request) (t_allowed (clock env)) (rate_limiter g)
  = (true, rl1) →
  returned (call_next (with_limiter rl1 g)) = Ok response →
  ∃ answered,
    returned (rate_limit_middleware request env call_next g) = Ok answered ∧
    resp_status answered = resp_status response ∧
    resp_content answered = resp_content response ∧
    resp_headers answered !! "X-RateLimit-Limit"
    = Some (str (max_requests (rate_limiter (after (call_next (with_limiter rl1 g)))))) ∧
    resp_headers answered !! "X-RateLimit-Remaining"
    = Some (str (get_remaining_requests (client_host request)
                   (t_remaining (clock env))
                   (rate_limiter (after (call_next (with_limiter rl1 g))))).1) ∧
    is_Some (resp_headers answered !! "X-RateLimit-Reset") ∧
    (∀ k, k ∉ ["X-RateLimit-Limit"; "X-RateLimit-Remaining"; "X-RateLimit-Reset"] →
          resp_headers answered !! k = resp_headers response !! k) ∧
    sent (rate_limit_middleware request env call_next g)
    = sent (call_next (with_limiter rl1 g)) ∧
    load_balancer (after (rate_limit_middleware request env call_next g))
    = load_balancer (after (call_next (with_limiter rl1 g))).
Proof.
  intros Hpath Hacc Hret.
  rewrite (middleware_admitted request env call_next g rl1 response) by done.
  cbn zeta. eexists. split; [reflexivity|]. cbn [resp_status resp_content
    resp_headers sent after load_balancer with_limiter].
  split_and!; try done.
  - do 2 (rewrite lookup_insert_ne by done). rewrite lookup_insert_eq.
    do 2 f_equal.
    destruct (run_limiter_op_config
                (CallReset (client_host request) (t_reset (clock env)))
                (get_remaining_requests (client_host request)
                   (t_remaining (clock env))
                   (rate_limiter (after (call_next (with_limiter rl1 g))))).2)
      as [Hm _].
    destruct (run_limiter_op_config
                (CallRemaining (client_host request) (t_remaining (clock env)))
                (rate_limiter (after (call_next (with_limiter rl1 g)))))
      as [Hm' _].
    simpl in Hm, Hm'. by rewrite Hm, Hm'.
  - rewrite lookup_insert_ne by done. by rewrite lookup_insert_eq.
  - rewrite lookup_insert_eq. by eexists.
  - intros k Hk.
    rewrite !lookup_insert_ne; [done|..]; intros <-; apply Hk.
    + left.
    + right. left.
    + right. right. left.
Qed.

Lemma admitted_response_headers_witness :
  ∃ answered,
    returned (rate_limit_middleware (get_request "/stats") (unreachable_env 0)
                (get_stats (get_request "/stats") (unreachable_env 0)) gateway0)
    = Ok answered ∧
    resp_headers answered !! "X-RateLimit-Remaining" = Some "4".
Proof.
  edestruct (admitted_response_headers (get_request "/stats") (unreachable_env 0)
               (get_stats (get_request "/stats") (unreachable_env 0)) gateway0)
    as (answered & Hret & _ & _ & _ & Hrem & _).
  - compute_done.
  - vm_compute. reflexivity.
  - vm_compute. reflexivity.
  - exists answered. split; [exact Hret|]. rewrite Hrem. vm_compute. reflexivity.
Defined.

(** X20 (an accepted request is charged once).  When a request is
    accepted, its handler leaves the limiter alone and the clock has not
    gone backwards by the time the middleware asks for the remaining
    quota, the client's list after the request is what the window at that
    later reading keeps of the old list followed by the one new
    timestamp. *)
Theorem admitted_request_charged_once (request : Request) (env : Env)
    (call_next : Gateway → Outcome) (g : Gateway) (rl1 : RateLimiter)
    (response : Response) :
  req_path request ∉ exempt_paths →
  is_allowed (client_host request) (t_allowed (clock env)) (rate_limiter g)
  = (true, rl1) →
  returned (call_next (with_limiter rl1 g)) = Ok response →
  rate_limiter (after (call_next (with_limiter rl1 g))) = rl1 →
  t_allowed (clock env) ≤ t_remaining (clock env) →
  stored (rate_limiter (after (rate_limit_middleware request env call_next g)))
    (client_host request)
  = in_window (window_seconds (rate_limiter g)) (t_remaining (clock env))
      (stored (rate_limiter g) (client_host request) ++ [t_allowed (clock env)]).
Proof.
  intros Hpath Hacc Hret Hkeep Hclock.
  rewrite (middleware_admitted request env call_next g rl1 response) by done.
  cbn zeta. cbn [after with_limiter rate_limiter]. rewrite Hkeep.
  rewrite get_reset_time_stored, get_remaining_requests_eq. cbn zeta. cbn [snd].
  rewrite stored_set_insert.
  destruct (is_allowed_stored (client_host request) (t_allowed (clock env))
              (rate_limiter g)) as (Hst & _ & Hw).
  rewrite Hacc in Hst, Hw. cbn [fst snd] in Hst, Hw.
  rewrite Hw, Hst, !in_window_app. by rewrite in_window_later.
Qed.

Lemma admitted_request_charged_once_witness :
  stored (rate_limiter
            (after (rate_limit_middleware (get_request "/api/data") (unreachable_env 7)
                      (λ g', http_exception_handler
                               (proxy_request "data" (get_request "/api/data")
                                  (unreachable_env 7) g'))
                      gateway0)))
    "127.0.0.1"
  = in_window 60 7 ([] ++ [7]).
Proof.
  eapply (admitted_request_charged_once (get_request "/api/data") (unreachable_env 7)
            (λ g', http_exception_handler
                     (proxy_request "data" (get_request "/api/data")
                        (unreachable_env 7) g'))
            gateway0).
  - compute_done.
  - vm_compute. reflexivity.
  - vm_compute. reflexivity.
  - vm_compute. reflexivity.
  - simpl. lia.
Defined.

(** X21 (the stats handler spends no budget).  The [/stats] handler
    leaves the pool as it is and no client's list longer; it only prunes
    the caller's list, so an [is_allowed] call made afterwards, at an
    instant not before the handler's reading of the clock, answers and
    stores what it would have without the handler. *)
Theorem get_stats_spends_no_budget (request : Request) (env : Env) (g : Gateway)
    (t : instant) :
  load_balancer (after (get_stats request env g)) = load_balancer g ∧
  status_of (get_stats request env g) = Some 200 ∧
  sent (get_stats request env g) = [] ∧
  (∀ c', c' ≠ client_host request →
     stored (rate_limiter (after (get_stats request env g))) c'
     = stored (rate_limiter g) c') ∧
  (t_stats_remaining (clock env) ≤ t →
   is_allowed (client_host request) t (rate_limiter (after (get_stats request env g)))
   = is_allowed (client_host request) t (rate_limiter g)).
Proof.
  unfold get_stats. cbn zeta.
  pose proof (queries_use_no_budget_reset (client_host request) t
                (t_stats_reset (clock env))
                (get_remaining_requests (client_host request)
                   (t_stats_remaining (clock env)) (rate_limiter g)).2) as Hreset.
  pose proof (queries_use_no_budget_remaining (client_host request) t
                (t_stats_remaining (clock env)) (rate_limiter g)) as Hrem.
  pose proof (λ c', run_limiter_op_other
                (CallRemaining (client_host request) (t_stats_remaining (clock env)))
                c' (rate_limiter g)) as Ho1.
  pose proof (λ c', get_reset_time_stored (client_host request) c'
                (t_stats_reset (clock env))
                (get_remaining_requests (client_host request)
                   (t_stats_remaining (clock env)) (rate_limiter g)).2) as Ho2.
  simpl in Ho1.
  destruct (get_remaining_requests _ _ _) as [rem rl1]. cbn [snd] in *.
  destruct (get_reset_time _ _ rl1) as [rst rl2]. cbn [snd] in *.
  cbn. split_and!; try done.
  - intros c' Hne. rewrite Ho2. apply Ho1. by intros <-.
  - intros Hle. rewrite Hreset. by apply Hrem.
Qed.

Lemma get_stats_spends_no_budget_witness :
  is_allowed "127.0.0.1" 9
    (rate_limiter (after (get_stats (get_request "/stats") (unreachable_env 5)
                            gateway0)))
  = is_allowed "127.0.0.1" 9 (rate_limiter gateway0).
Proof.
  apply (proj2 (proj2 (proj2 (proj2
           (get_stats_spends_no_budget (get_request "/stats") (unreachable_env 5)
              gateway0 9))))).
  simpl. lia.
Defined.

Section EvenLoad.
Implicit Types (lb : LoadBalancer).

Lemma next_n_add (n m : nat) : ∀ lb,
  next_n (n + m) lb
  = ((next_n n lb).1 ++ (next_n m (next_n n lb).2).1,
     (next_n m (next_n n lb).2).2).
Proof.
  induction n as [|n IH]; intros lb.
  - simpl. by destruct (next_n m lb).
  - cbn [Nat.add next_n]. destruct (get_next_service lb) as [r lb1].
    rewrite IH. destruct (next_n n lb1) as [rs lb2]. cbn [fst snd].
    by destruct (next_n m lb2).
Qed.

Lemma slot_add_length (c : Z) (n : nat) :
  (0 < n)%nat → slot (c + Z.of_nat n) n = slot c n.
Proof.
  intros Hn. unfold slot. f_equal.
  rewrite <-(Z.mul_1_l (Z.of_nat n)) at 1. rewrite Z.mod_add by lia. done.
Qed.

(** Whole turns of the rotation repeat the same sequence. *)
Lemma next_n_turns (k : nat) : ∀ lb,
  healthy_services lb ≠ [] →
  next_n (k * length (healthy_services lb)) lb
  = (mjoin (replicate k
              (Ok <$> rotate (slot (current_index lb) (length (healthy_services lb)))
                        (healthy_services lb))),
     set_cursor
       (current_index lb + Z.of_nat (k * length (healthy_services lb))) lb).
Proof.
  induction k as [|k IH]; intros lb Hne.
  - simpl. f_equal. destruct lb. unfold set_cursor. simpl. f_equal. lia.
  - assert (0 < length (healthy_services lb))%nat as Hpos.
    { destruct (healthy_services lb); [done | simpl; lia]. }
    change (S k * length (healthy_services lb))%nat
      with (length (healthy_services lb) + k * length (healthy_services lb))%nat.
    rewrite next_n_add, next_n_rotation by done. cbn [fst snd].
    rewrite (IH (set_cursor _ lb)) by done.
    cbn [set_cursor healthy_services current_index fst snd].
    rewrite slot_add_length by done. cbn [replicate mjoin].
    f_equal. unfold set_cursor. simpl. f_equal. lia.
Qed.

End EvenLoad.

(** X22 (even load over whole turns).  With no health changes, [k] times
    N consecutive selections over a healthy list of size N hand out the
    same rotation of the healthy list [k] times over: every healthy entry
    is selected exactly [k] times, and the cursor ends [k] times N
    further. *)
Theorem round_robin_even_load (k : nat) (lb : LoadBalancer) :
  healthy_services lb ≠ [] →
  (next_n (k * length (healthy_services lb)) lb).1
  = mjoin (replicate k
             (Ok <$> rotate (slot (current_index lb) (length (healthy_services lb)))
                       (healthy_services lb))) ∧
  (next_n (k * length (healthy_services lb)) lb).1
  ≡ₚ Ok <$> mjoin (replicate k (healthy_services lb)) ∧
  current_index (next_n (k * length (healthy_services lb)) lb).2
  = current_index lb + Z.of_nat k * Z.of_nat (length (healthy_services lb)).
Proof.
  intros Hne. rewrite next_n_turns by done. cbn [fst snd]. split_and!.
  - done.
  - clear Hne. induction k as [|k IH]; [done|].
    simpl. rewrite fmap_app, IH. by rewrite rotate_perm.
  - simpl. lia.
Qed.

Lemma round_robin_even_load_witness :
  (next_n (2 * 3) (LoadBalancer_init BACKEND_SERVICES)).1
  = Ok <$> (BACKEND_SERVICES ++ BACKEND_SERVICES).
Proof.
  refine (eq_trans (proj1 (round_robin_even_load 2
                             (LoadBalancer_init BACKEND_SERVICES) _)) _).
  - discriminate.
  - reflexivity.
Defined.
